(** * The two-phase append protocol of a vsb block

    A shallow embedding of [internal/store/vsb/block_append.go]
    (package [vsb]): the append context, [NewAppendContext],
    [PrepareAppend], [PrepareArchive], [CommitAppend] and its helpers
    [trimFragments], [checkFragments] and [buildIndexes].

    Conventions.
    - Go's [int64] (and [int], 64 bits wide on the platforms the store
      runs on) is a [Z] with the wrap-around of every arithmetic
      operation written out ([add64], [sub64]).
    - A call either returns, panics (slice bounds, nil dereference) or
      does not return; [res] records which, the last one as running out
      of fuel.
    - The tracer spans and the structured log calls have no effect on
      the values and state studied here and are left out; the
      [context.Context] they receive is still threaded through. *)

From stdpp Require Import base numbers list.
From Stdlib Require Import ZArith Lia.
From Stdlib.Strings Require Import Byte.

Local Open Scope Z_scope.

(** ** Machine integers *)

Definition wrap64 (z : Z) : Z := (z + 2 ^ 63) mod 2 ^ 64 - 2 ^ 63.
Definition wrap32 (z : Z) : Z := (z + 2 ^ 31) mod 2 ^ 32 - 2 ^ 31.
Definition add64 (a b : Z) : Z := wrap64 (a + b).
Definition sub64 (a b : Z) : Z := wrap64 (a - b).

Definition in_int64 (z : Z) : Prop := - 2 ^ 63 <= z < 2 ^ 63.

Abbreviation bytes := (list byte).

(** [len(s)] as a Go [int]. *)
Definition len {A} (l : list A) : Z := Z.of_nat (length l).

(** ** Outcome of a call *)

Inductive res (A : Type) : Type :=
| Ret (a : A)
| Panic
| NoFuel.
Arguments Ret {A} a.
Arguments Panic {A}.
Arguments NoFuel {A}.

Definition bind {A B} (m : res A) (k : A -> res B) : res B :=
  match m with
  | Ret a => k a
  | Panic => Panic
  | NoFuel => NoFuel
  end.

Notation "'let*' x := m 'in' k" := (bind m (fun x => k))
  (at level 10, x name, m at level 200, k at level 200).

(** The error values a commit can hand back: [errors.ErrInternal],
    the package's [errCorruptedFragment], an error of the file,
    and [context.Canceled]. *)
Inductive error : Set :=
| ErrInternal
| errCorruptedFragment
| ErrCanceled
| ErrIO (code : Z).

(** [context.Context]: what matters of it is whether it has been cancelled. *)
Record Context : Set := { ctx_done : bool }.

(** ** Entries ([ceschema]) *)

Module ceschema.

Inductive entry_type : Set := CloudEvent | End | Reserved.

(** Modelled from the spec: the entry of section 3 (the [block.Entry]
    implementations are not in the sources at hand): type tag,
    sequence number, timestamp and payload. *)
Record Entry : Set := mkEntry {
  ty : entry_type;
  seq : Z;
  stime : Z;
  body : bytes
}.

(** Modelled from the spec: the two accessors of package [ceschema] that
    the block uses, reading the fields of section 3. *)
Definition SequenceNumber (e : Entry) : Z := seq e.
Definition EntryType (e : Entry) : entry_type := ty e.

Definition is_End (t : entry_type) : bool :=
  match t with End => true | _ => false end.

End ceschema.

Abbreviation Entry := ceschema.Entry.

(** ** Codec interfaces

    [b.enc] and [b.dec] are interface values held by the block. *)

(** Modelled from the spec: the encoder of section 4.1 (the codec package
    is not at hand), [size] and [marshalTo]. [MarshalTo] fills the
    destination slice it is given and cannot change its length. *)
Record EntryEncoder : Type := {
  enc_Size : Entry -> Z;
  MarshalTo : Entry -> bytes -> bytes
}.

(** Modelled from the spec: the decoder of section 4.1, [unmarshal] and
    [unmarshalLast], each giving the bytes consumed and the entry. The
    callers below discard the error, so a decoder is a pair of total
    functions. *)
Record EntryDecoder : Type := {
  Unmarshal : bytes -> Z * Entry;
  UnmarshalLast : bytes -> Z * Entry
}.

(** ** Slices *)

(** [s[k:]]: panics unless [0 <= k <= len(s)]. *)
Definition slice_from {A} (s : list A) (k : Z) : res (list A) :=
  if (k <? 0) || (len s <? k) then Panic else Ret (drop (Z.to_nat k) s).

(** [copy(dst, src)] on a destination that is the tail [buf[k:]] of
    [buf]: overwrites [min(len dst, len src)] elements in place. *)
Definition copy_into {A} (buf : list A) (k : nat) (src : list A) : list A :=
  let m := Nat.min (length buf - k) (length src) in
  take k buf ++ take m src ++ drop (k + m) buf.

(** ** Fragments *)

(** Modelled from the spec: the fragment of sections 3 and 4.2 (its
    source file is not at hand): an immutable pair of a start offset
    and a payload, [endOffset = startOffset + len(payload)] in [int64]. *)
Record Fragment : Set := mkFragment {
  frag_so : Z;
  frag_data : bytes
}.

Definition StartOffset (f : Fragment) : Z := frag_so f.
Definition Payload (f : Fragment) : bytes := frag_data f.
Definition Size (f : Fragment) : Z := len (frag_data f).
Definition EndOffset (f : Fragment) : Z := add64 (frag_so f) (Size f).

(** Modelled from the spec: [wrapEntry] (section 4.4) stamps an entry
    with a type, a sequence number and a timestamp. *)
Definition wrapEntry (e : Entry) (t : ceschema.entry_type) (s now : Z) : Entry :=
  ceschema.mkEntry t s now (ceschema.body e).

(** Modelled from the spec: the size pass of [newFragment] (section 4.2),
    which sums the codec sizes of the entries into an [int]. *)
Definition total_size (enc : EntryEncoder) (ents : list Entry) : Z :=
  fold_left (fun sz e => add64 sz (enc_Size enc e)) ents 0.

(** Modelled from the spec: the marshalling pass of [newFragment]
    (section 4.2), each entry into its own window [buf[off:off+size]] of
    the buffer, back to back; a window must lie inside the buffer. *)
Fixpoint marshal_all (enc : EntryEncoder) (ents : list Entry)
    (buf : bytes) (off : Z) : res bytes :=
  match ents with
  | [] => Ret buf
  | e :: rest =>
      let sz := enc_Size enc e in
      let hi := add64 off sz in
      if (off <? 0) || (hi <? off) || (len buf <? hi) then Panic
      else
        let window := take (Z.to_nat sz) (drop (Z.to_nat off) buf) in
        let filled := take (length window) (MarshalTo enc e window) in
        marshal_all enc rest (copy_into buf (Z.to_nat off) filled) hi
  end.

(** Modelled from the spec: [newFragment] (section 4.2; its source file is
    not at hand) allocates one buffer sized by summing the codec sizes and
    marshals the entries into it. [make] panics on a negative size. *)
Definition newFragment (so : Z) (ents : list Entry) (enc : EntryEncoder)
  : res Fragment :=
  let sz := total_size enc ents in
  if sz <? 0 then Panic
  else
    let* data := marshal_all enc ents (replicate (Z.to_nat sz) x00) 0 in
    Ret (mkFragment so data).

(** ** Index records *)

(** Modelled from the spec: the index record of section 3 (package
    [index] is not at hand): file offset, encoded length as an [int32],
    and the sequence number and timestamp taken from the entry. *)
Record Index : Set := mkIndex {
  index_offset : Z;
  index_length : Z;
  index_seq : Z;
  index_stime : Z
}.

Definition NewIndex (off : Z) (length32 : Z) (e : Entry) : Index :=
  mkIndex off length32 (ceschema.seq e) (ceschema.stime e).

(** ** The block file *)

(** Modelled from the spec: the file handle of section 3. The file is the
    log of the [WriteAt] calls made on it together with a fault plan:
    [fault k] tells whether the [k]-th call fails, after how many bytes
    and with which error code. A call that succeeds writes all of [p]
    and reports [len(p)], as [io.WriterAt] demands. *)
Record File : Type := mkFile {
  writes : list (Z * bytes);
  fault : nat -> option (nat * Z)
}.

Definition WriteAt (f : File) (p : bytes) (off : Z) : (Z * option error) * File :=
  match fault f (length (writes f)) with
  | None => ((len p, None), mkFile (writes f ++ [(off, p)]) (fault f))
  | Some (n, code) =>
      let done := take n p in
      ((len done, Some (ErrIO code)), mkFile (writes f ++ [(off, done)]) (fault f))
  end.

(** ** Append context and block *)

Record appendContext : Set := mkActx {
  seq : Z;        (* int64 *)
  offset : Z;     (* int64 *)
  archived : Z    (* uint32 *)
}.

Definition size (c : appendContext) (dataOffset : Z) : Z := sub64 (offset c) dataOffset.
Definition WriteOffset (c : appendContext) : Z := offset c.
Definition Archived (c : appendContext) : bool := negb (archived c =? 0).

Record vsBlock : Type := mkBlock {
  id : Z;
  dataOffset : Z;
  capacity : Z;
  actx : appendContext;
  indexes : list Index;
  enc : EntryEncoder;
  dec : EntryDecoder;
  f : File
}.

Definition set_file (b : vsBlock) (f' : File) : vsBlock :=
  mkBlock (id b) (dataOffset b) (capacity b) (actx b) (indexes b) (enc b) (dec b) f'.

Definition set_progress (b : vsBlock) (c : appendContext) (ix : list Index) : vsBlock :=
  mkBlock (id b) (dataOffset b) (capacity b) c ix (enc b) (dec b) (f b).

(** A [*appendContext] is either the address of the block's own field
    [b.actx] or a cell allocated by [NewAppendContext]. *)
Inductive ctxref : Set :=
| Canonical
| Detached (l : nat).

Record World : Type := mkWorld {
  blk : vsBlock;
  heap : list appendContext
}.

Definition deref (w : World) (p : ctxref) : res appendContext :=
  match p with
  | Canonical => Ret (actx (blk w))
  | Detached l => match heap w !! l with Some c => Ret c | None => Panic end
  end.

Definition assign (w : World) (p : ctxref) (c : appendContext) : World :=
  match p with
  | Canonical => mkWorld (set_progress (blk w) c (indexes (blk w))) (heap w)
  | Detached l => mkWorld (blk w) (<[l := c]> (heap w))
  end.

(** ** NewAppendContext *)

Definition NewAppendContext (last : option Fragment) (w : World) : ctxref * World :=
  let b := blk w in
  match last with
  | Some last =>
      let '(_, entry) := UnmarshalLast (dec b) (Payload last) in
      let s := ceschema.SequenceNumber entry in
      let c := mkActx (add64 s 1) (EndOffset last) 0 in
      let c := if ceschema.is_End (ceschema.EntryType entry)
               then mkActx (seq c) (offset c) 1 else c in
      (Detached (length (heap w)), mkWorld b (heap w ++ [c]))
  | None =>
      (* Copy append context. *)
      (Detached (length (heap w)), mkWorld b (heap w ++ [actx b]))
  end.

(** ** PrepareAppend and PrepareArchive *)

(** The loop of [PrepareAppend]: entry [i] gets [actx.seq + i]. *)
Fixpoint wrap_entries (s0 now i : Z) (entries : list Entry) : list Entry * list Z :=
  match entries with
  | [] => ([], [])
  | e :: rest =>
      let sq := add64 s0 i in
      let '(ents, seqs) := wrap_entries s0 now (i + 1) rest in
      (wrapEntry e ceschema.CloudEvent sq now :: ents, sq :: seqs)
  end.

(** [now] is the reading of [time.Now().UnixMilli()]. *)
Definition PrepareAppend (ctx : Context) (now : Z) (appendCtx : ctxref)
    (entries : list Entry) (w : World)
  : res ((list Z * Fragment * bool * option error) * World) :=
  let b := blk w in
  let* c := deref w appendCtx in
  let num := len entries in
  let '(ents, seqs) := wrap_entries (seq c) now 0 entries in
  let* frag := newFragment (offset c) ents (enc b) in
  let c := mkActx (seq c) (add64 (offset c) (Size frag)) (archived c) in
  let c := mkActx (add64 (seq c) num) (offset c) (archived c) in
  Ret ((seqs, frag, capacity b <=? size c (dataOffset b), None), assign w appendCtx c).

(** Modelled from the spec: [block.EmptyEntryExt], the payload-free entry
    that [PrepareArchive] wraps into the End entry (section 3). *)
Definition EmptyEntryExt : Entry := ceschema.mkEntry ceschema.Reserved 0 0 [].

Definition PrepareArchive (ctx : Context) (now : Z) (appendCtx : ctxref) (w : World)
  : res ((Fragment * option error) * World) :=
  let b := blk w in
  let* c := deref w appendCtx in
  let e := wrapEntry EmptyEntryExt ceschema.End (seq c) now in
  let* frag := newFragment (offset c) [e] (enc b) in
  let c := mkActx (add64 (seq c) 1) (add64 (offset c) (Size frag)) 1 in
  Ret ((frag, None), assign w appendCtx c).

(** ** trimFragments *)

(** The [for i := 0; i < len(frags); i++] loop, [n] iterations left. *)
Fixpoint trimFragments_loop (n i : nat) (off : Z) (frags : list Fragment)
  : list Fragment * option error :=
  match n with
  | O => ([], None)
  | S n' =>
      match frags !! i with
      | None => ([], None)
      | Some frag =>
          if EndOffset frag <=? off then trimFragments_loop n' (S i) off frags
          else if off <? StartOffset frag then ([], Some ErrInternal)
          else if negb (Nat.eqb i 0) then (drop i frags, None)
          else (frags, None)
      end
  end.

Definition trimFragments (ctx : Context) (b : vsBlock) (frags : list Fragment)
  : list Fragment * option error :=
  let off := offset (actx b) in
  trimFragments_loop (length frags) 0 off frags.

(** ** checkFragments *)

(** The [for i := 1; i < len(frags); i++] loop, [n] iterations left. *)
Fixpoint checkFragments_loop (n i : nat) (frags : list Fragment) : option error :=
  match n with
  | O => None
  | S n' =>
      match frags !! (i - 1)%nat, frags !! i with
      | Some prev, Some next =>
          let prevEo := EndOffset prev in
          let nextSo := StartOffset next in
          if negb (prevEo =? nextSo) then Some ErrInternal
          else checkFragments_loop n' (S i) frags
      | _, _ => None
      end
  end.

Definition checkFragments (ctx : Context) (b : vsBlock) (frags : list Fragment)
  : option error :=
  checkFragments_loop (length frags - 1) 1 frags.

(** ** Coalescing the kept fragments *)

Definition sum_sizes (frags : list Fragment) : Z :=
  fold_left (fun sz frag => add64 sz (Size frag)) frags 0.

(** [copy(data[frag.StartOffset()-base:], frag.Payload())] for each fragment. *)
Fixpoint copy_frags (base : Z) (frags : list Fragment) (data : bytes) : res bytes :=
  match frags with
  | [] => Ret data
  | frag :: rest =>
      let k := sub64 (StartOffset frag) base in
      if (k <? 0) || (len data <? k) then Panic
      else copy_frags base rest (copy_into data (Z.to_nat k) (Payload frag))
  end.

Definition coalesce (frags : list Fragment) : res (Z * bytes) :=
  let sz := sum_sizes frags in
  if sz <? 0 then Panic
  else
    let data := replicate (Z.to_nat sz) x00 in
    match frags with
    | [] => Panic
    | first :: _ =>
        let base := StartOffset first in
        let* data := copy_frags base frags data in
        Ret (base, data)
    end.

(** ** buildIndexes *)

(** The variables of the scanning loop. [archived] is not among them: it
    is set only on the way out. *)
Record scan : Set := mkScan {
  sc_off : Z;
  sc_expected : Z;
  sc_indexes : list Index
}.

Definition scan_result : Set := (list Index * Z * bool * option error)%type.

Inductive scan_next : Set :=
| Again (s : scan)
| Return (r : scan_result)
| Crash.

(** One evaluation of the loop condition and, when it holds, of the body.
    The [continue] of the second [case] goes back to the condition with
    [off], [expected] and [indexes] as they are: the loop has no post
    statement. *)
Definition buildIndexes_iter (b : vsBlock) (base : Z) (data : bytes) (s : scan)
  : scan_next :=
  let sz := len data in
  let off := sc_off s in
  let expected := sc_expected s in
  let indexes := sc_indexes s in
  if negb (off <? sz) then
    Return (indexes, sub64 expected (seq (actx b)), false, None)
  else
    match slice_from data off with
    | Ret rest =>
        let '(n, entry) := Unmarshal (dec b) rest in
        let sq := ceschema.SequenceNumber entry in
        if sq =? expected then
          let expected := add64 expected 1 in
          if ceschema.is_End (ceschema.EntryType entry) then
            (* End entry must be the last. *)
            if negb (add64 off n =? sz) then
              Return ([], 0, false, Some errCorruptedFragment)
            else
              Return (indexes, sub64 expected (seq (actx b)), true, None)
          else
            let idx := NewIndex (add64 base off) (wrap32 n) entry in
            Again (mkScan (add64 off n) expected (indexes ++ [idx]))
        else if (sq <? expected) && (len indexes =? 0) then
          Again s
        else
          Return ([], 0, false, Some errCorruptedFragment)
    | _ => Crash
    end.

Fixpoint buildIndexes_loop (fuel : nat) (b : vsBlock) (base : Z) (data : bytes)
    (s : scan) : res scan_result :=
  match fuel with
  | O => NoFuel
  | S fuel' =>
      match buildIndexes_iter b base data s with
      | Again s' => buildIndexes_loop fuel' b base data s'
      | Return r => Ret r
      | Crash => Panic
      end
  end.

Definition buildIndexes (fuel : nat) (ctx : Context) (b : vsBlock) (base : Z)
    (data : bytes) : res scan_result :=
  buildIndexes_loop fuel b base data (mkScan 0 (seq (actx b)) []).

(** ** CommitAppend

    What follows the in-memory commit when the block has just been
    archived (the snapshot, the background task that writes the index
    record and the header, the listener) reads the state set here and
    writes none of [actx] and [indexes]; it is not part of the model. *)
Definition CommitAppend (fuel : nat) (ctx : Context) (b : vsBlock)
    (frags : list Fragment) : res ((bool * option error) * vsBlock) :=
  match trimFragments ctx b frags with
  | (_, Some err) => Ret ((false, Some err), b)
  | (frags, None) =>
      if len frags =? 0 then Ret ((false, None), b)
      else
        match checkFragments ctx b frags with
        | Some err => Ret ((false, Some err), b)
        | None =>
            let* bd := coalesce frags in
            let '(base, data) := bd in
            let* r := buildIndexes fuel ctx b base data in
            match r with
            | (_, _, _, Some err) => Ret ((false, Some err), b)
            | (indexes', entryCount, archived', None) =>
                if negb archived' && (len indexes' =? 0) then Ret ((false, None), b)
                else
                  let* tail := slice_from data (sub64 (offset (actx b)) base) in
                  let '((entrySize, werr), f') := WriteAt (f b) tail (offset (actx b)) in
                  let b := set_file b f' in
                  match werr with
                  | Some err => Ret ((false, Some err), b)
                  | None =>
                      let c := mkActx (add64 (seq (actx b)) entryCount)
                                      (add64 (offset (actx b)) entrySize)
                                      (if archived' then 1 else archived (actx b)) in
                      Ret ((archived', None), set_progress b c (indexes b ++ indexes'))
                  end
            end
        end
  end.

(** ** A codec instance *)

(** Modelled from the spec: the entry wire format of section 6 (the codec
    package is not at hand), for entries without attributes:
    leading length (4B), type tag (1B), sequence (8B), timestamp (8B),
    attribute count (2B, zero), payload length (4B), payload, trailing
    length (4B); integers little-endian, both lengths the size of the whole
    record. The theorems below hold for every codec; this one serves to
    run the block on concrete fragments. *)
Module wire.

Definition byte_of_Z (z : Z) : byte :=
  match Byte.of_N (Z.to_N (z mod 256)) with Some b => b | None => x00 end.
Definition Z_of_byte (b : byte) : Z := Z.of_N (Byte.to_N b).

Fixpoint put_le (k : nat) (z : Z) : bytes :=
  match k with
  | O => []
  | S k' => byte_of_Z z :: put_le k' (z / 256)
  end.

Fixpoint get_le (bs : bytes) : Z :=
  match bs with
  | [] => 0
  | b :: rest => Z_of_byte b + 256 * get_le rest
  end.

Definition tag_of (t : ceschema.entry_type) : Z :=
  match t with
  | ceschema.CloudEvent => 0
  | ceschema.End => 1
  | ceschema.Reserved => 255
  end.

Definition type_of (z : Z) : ceschema.entry_type :=
  if z =? 0 then ceschema.CloudEvent
  else if z =? 1 then ceschema.End
  else ceschema.Reserved.

Definition overhead : Z := 31.

Definition Size (e : Entry) : Z := overhead + len (ceschema.body e).

Definition encode (e : Entry) : bytes :=
  let total := Size e in
  put_le 4 total ++ put_le 1 (tag_of (ceschema.ty e))
    ++ put_le 8 (ceschema.seq e) ++ put_le 8 (ceschema.stime e)
    ++ put_le 2 0 ++ put_le 4 (len (ceschema.body e)) ++ ceschema.body e
    ++ put_le 4 total.

Definition MarshalTo (e : Entry) (dst : bytes) : bytes := encode e.

Definition nothing : Entry := ceschema.mkEntry ceschema.Reserved 0 0 [].

Definition Unmarshal (bs : bytes) : Z * Entry :=
  let total := get_le (take 4 bs) in
  if (total <? overhead) || (len bs <? total) then (0, nothing)
  else
    let t := type_of (get_le (take 1 (drop 4 bs))) in
    let sq := wrap64 (get_le (take 8 (drop 5 bs))) in
    let ts := wrap64 (get_le (take 8 (drop 13 bs))) in
    let plen := get_le (take 4 (drop 23 bs)) in
    (total, ceschema.mkEntry t sq ts (take (Z.to_nat plen) (drop 27 bs))).

Definition UnmarshalLast (bs : bytes) : Z * Entry :=
  let total := get_le (drop (length bs - 4) bs) in
  if (total <? overhead) || (len bs <? total) then (0, nothing)
  else Unmarshal (drop (length bs - Z.to_nat total) bs).

Definition encoder : EntryEncoder := Build_EntryEncoder Size MarshalTo.
Definition decoder : EntryDecoder := Build_EntryDecoder Unmarshal UnmarshalLast.

End wire.

(** ** Sample blocks and fragments (scenarios S1 to S6 of the spec) *)

Module sample.

Definition no_fault : nat -> option (nat * Z) := fun _ => None.
Definition fail_first : nat -> option (nat * Z) :=
  fun k => match k with O => Some (O, 5) | _ => None end.

Definition fresh_with (plan : nat -> option (nat * Z)) : vsBlock :=
  mkBlock 1 64 1048576 (mkActx 0 64 0) [] wire.encoder wire.decoder (mkFile [] plan).

Definition fresh : vsBlock := fresh_with no_fault.

Definition live : Context := Build_Context false.
Definition cancelled : Context := Build_Context true.

Definition ev (b : byte) : Entry := ceschema.mkEntry ceschema.Reserved 0 0 [b; b].

Definition world0 : World := mkWorld fresh [].

(** Raw records, for fragments that no [PrepareAppend] would produce. *)
Definition rec (t : ceschema.entry_type) (sq : Z) : bytes :=
  wire.encode (ceschema.mkEntry t sq 1000 []).

(** Two events, sequence numbers 0 and 1, at the start of the data area. *)
Definition f01 : Fragment :=
  mkFragment 64 (rec ceschema.CloudEvent 0 ++ rec ceschema.CloudEvent 1).
Definition f0 : Fragment := mkFragment 64 (rec ceschema.CloudEvent 0).
Definition f1 : Fragment := mkFragment 95 (rec ceschema.CloudEvent 1).
Definition f2 : Fragment := mkFragment 126 (rec ceschema.CloudEvent 2).
Definition fend2 : Fragment := mkFragment 126 (rec ceschema.End 2).

(** A fragment that starts past the data area. *)
Definition fgap : Fragment := mkFragment 128 (rec ceschema.CloudEvent 0).

(** Sequence numbers 0 then 2. *)
Definition f02 : Fragment :=
  mkFragment 64 (rec ceschema.CloudEvent 0 ++ rec ceschema.CloudEvent 2).

(** An End entry followed by another entry. *)
Definition fend_then : Fragment :=
  mkFragment 64 (rec ceschema.End 0 ++ rec ceschema.CloudEvent 1).

(** A lone End entry whose sequence number is not the expected one. *)
Definition fend_seq5 : Fragment := mkFragment 64 (rec ceschema.End 5).

(** The block after entry 0 alone has been committed. *)
Definition after0 : vsBlock :=
  mkBlock 1 64 1048576 (mkActx 1 95 0) [mkIndex 64 31 0 1000]
          wire.encoder wire.decoder (mkFile [(64, rec ceschema.CloudEvent 0)] no_fault).

(** The block after entries 0 and 1 have been committed in one call. *)
Definition after01 : vsBlock :=
  mkBlock 1 64 1048576 (mkActx 2 126 0)
          [mkIndex 64 31 0 1000; mkIndex 95 31 1 1000]
          wire.encoder wire.decoder
          (mkFile [(64, rec ceschema.CloudEvent 0 ++ rec ceschema.CloudEvent 1)]
                  no_fault).

(** Entries 0 and 1 followed by the End entry, as three fragments, and
    the buffer they coalesce into. *)
Definition sealed : list Fragment := [f0; f1; fend2].
Definition sealed_data : bytes := Payload f0 ++ Payload f1 ++ Payload fend2.

(** Two prepares in a row on a copy of the context of the fresh block. *)
Definition world1 : World := snd (NewAppendContext None world0).

Definition returned {A} (r : res A) (default : A) : A :=
  match r with Ret x => x | _ => default end.

Definition nothing_prepared : (list Z * Fragment * bool * option error) * World :=
  (([], mkFragment 0 [], false, None), world0).

Definition prep1 : (list Z * Fragment * bool * option error) * World :=
  returned (PrepareAppend live 1000 (Detached 0) [ev x01; ev x02] world1)
           nothing_prepared.

Definition prep2 : (list Z * Fragment * bool * option error) * World :=
  returned (PrepareAppend live 1001 (Detached 0) [ev x03] (snd prep1))
           nothing_prepared.

Definition frag_of (r : (list Z * Fragment * bool * option error) * World) : Fragment :=
  snd (fst (fst (fst r))).
Definition seqs_of (r : (list Z * Fragment * bool * option error) * World) : list Z :=
  fst (fst (fst (fst r))).

End sample.

(** ** The phases of CommitAppend as the spec words them

    Section 4.4, steps 1 and 2, written by recursion on the list; the
    loops above are compared with them below. *)

Fixpoint trim_spec (W : Z) (frags : list Fragment) : list Fragment * option error :=
  match frags with
  | [] => ([], None)
  | f :: rest =>
      if EndOffset f <=? W then trim_spec W rest
      else if W <? StartOffset f then ([], Some ErrInternal)
      else (f :: rest, None)
  end.

Fixpoint contiguous_from (kept : Fragment) (rest : list Fragment) : option error :=
  match rest with
  | [] => None
  | next :: rest' =>
      if negb (EndOffset kept =? StartOffset next) then Some ErrInternal
      else contiguous_from next rest'
  end.

(** Some adjacent pair [(kept, next)] has [kept.endOffset <> next.startOffset]. *)
Definition broken_pair (frags : list Fragment) : Prop :=
  exists (i : nat) (kept next : Fragment),
    frags !! i = Some kept /\ frags !! (S i) = Some next /\
    EndOffset kept <> StartOffset next.

(** A call that returned the error [e]. *)
Definition fails_with {St : Type} (r : res ((bool * option error) * St)) (e : error) : Prop :=
  exists (a : bool) (s : St), r = Ret ((a, Some e), s).

(** ** The exits of CommitAppend

    [commit_exit fuel ctx b frags a e b'] lists the ways in which
    [CommitAppend] returns [(a, e)] and leaves the block as [b'], one
    constructor per [return] of the source. *)

Definition advanced (b : vsBlock) (f' : File) (ix : list Index)
    (entryCount entrySize : Z) (arch : bool) : vsBlock :=
  set_progress (set_file b f')
    (mkActx (add64 (seq (actx b)) entryCount)
            (add64 (offset (actx b)) entrySize)
            (if arch then 1 else archived (actx b)))
    (indexes b ++ ix).

Inductive commit_exit (fuel : nat) (ctx : Context) (b : vsBlock)
    (frags : list Fragment) : bool -> option error -> vsBlock -> Prop :=
| exit_trim_error kept err :
    trimFragments ctx b frags = (kept, Some err) ->
    commit_exit fuel ctx b frags false (Some err) b
| exit_nothing_left :
    trimFragments ctx b frags = ([], None) ->
    commit_exit fuel ctx b frags false None b
| exit_discontinuous kept err :
    trimFragments ctx b frags = (kept, None) -> kept <> [] ->
    checkFragments ctx b kept = Some err ->
    commit_exit fuel ctx b frags false (Some err) b
| exit_corrupted kept base data ix cnt arch err :
    trimFragments ctx b frags = (kept, None) -> kept <> [] ->
    checkFragments ctx b kept = None ->
    coalesce kept = Ret (base, data) ->
    buildIndexes fuel ctx b base data = Ret (ix, cnt, arch, Some err) ->
    commit_exit fuel ctx b frags false (Some err) b
| exit_redelivered kept base data cnt :
    trimFragments ctx b frags = (kept, None) -> kept <> [] ->
    checkFragments ctx b kept = None ->
    coalesce kept = Ret (base, data) ->
    buildIndexes fuel ctx b base data = Ret ([], cnt, false, None) ->
    commit_exit fuel ctx b frags false None b
| exit_write_error kept base data ix cnt arch tail n err f' :
    trimFragments ctx b frags = (kept, None) -> kept <> [] ->
    checkFragments ctx b kept = None ->
    coalesce kept = Ret (base, data) ->
    buildIndexes fuel ctx b base data = Ret (ix, cnt, arch, None) ->
    arch = true \/ ix <> [] ->
    slice_from data (sub64 (offset (actx b)) base) = Ret tail ->
    WriteAt (f b) tail (offset (actx b)) = ((n, Some err), f') ->
    commit_exit fuel ctx b frags false (Some err) (set_file b f')
| exit_committed kept base data ix cnt arch tail n f' :
    trimFragments ctx b frags = (kept, None) -> kept <> [] ->
    checkFragments ctx b kept = None ->
    coalesce kept = Ret (base, data) ->
    buildIndexes fuel ctx b base data = Ret (ix, cnt, arch, None) ->
    arch = true \/ ix <> [] ->
    slice_from data (sub64 (offset (actx b)) base) = Ret tail ->
    WriteAt (f b) tail (offset (actx b)) = ((n, None), f') ->
    commit_exit fuel ctx b frags arch None (advanced b f' ix cnt n arch).

(** The state of the scan after [k] further turns of the loop, if it
    is still running then. *)
Fixpoint scan_after (k : nat) (b : vsBlock) (base : Z) (data : bytes)
    (s : scan) : option scan :=
  match k with
  | O => Some s
  | S k' =>
      match buildIndexes_iter b base data s with
      | Again s' => scan_after k' b base data s'
      | _ => None
      end
  end.

Definition scan_start (b : vsBlock) : scan := mkScan 0 (seq (actx b)) [].

(** ** Sizes that fit

    The sum of the codec sizes without wrap-around, and what it takes for
    [newFragment] to be able to allocate its buffer: no negative size and a
    total within [int]. *)
Definition sizes_sum (enc : EntryEncoder) (ents : list Entry) : Z :=
  fold_right (fun e t => enc_Size enc e + t) 0 ents.

Definition sizes_fit (enc : EntryEncoder) (ents : list Entry) : Prop :=
  Forall (fun e => 0 <= enc_Size enc e) ents /\ sizes_sum enc ents < 2 ^ 63.

(** The entries [PrepareAppend] encodes: entry [i] stamped with
    [c.seq + i], the time of the call and the type [CloudEvent]. *)
Definition wrapped (c : appendContext) (now : Z) (entries : list Entry) : list Entry :=
  imap (fun i e => wrapEntry e ceschema.CloudEvent (add64 (seq c) (Z.of_nat i)) now)
       entries.

(** ** Fragments that fit

    A fragment lies in a file: its start offset is not negative and its
    end offset is an [int64]. *)
Definition fits (g : Fragment) : Prop :=
  0 <= frag_so g /\ frag_so g + Size g < 2 ^ 63.

(** The end offset of the last fragment of [kept :: rest]. *)
Fixpoint end_of (kept : Fragment) (rest : list Fragment) : Z :=
  match rest with
  | [] => EndOffset kept
  | next :: rest' => end_of next rest'
  end.

(** ** Vocabulary of the further properties *)

(** The fields of a block that no call below assigns. *)
Definition same_setup (b b' : vsBlock) : Prop :=
  id b' = id b /\ dataOffset b' = dataOffset b /\ capacity b' = capacity b
  /\ enc b' = enc b /\ dec b' = dec b /\ fault (f b') = fault (f b).

Definition b2z (x : bool) : Z := if x then 1 else 0.

(** [data] starts with the entries [ents], each given with the byte count
    the decoder reports for it: none of them is an End entry, their
    sequence numbers run from [s] upwards, and [rest] is what follows them. *)
Fixpoint events_run (d : EntryDecoder) (s : Z) (data : bytes)
    (ents : list (Z * Entry)) (rest : bytes) : Prop :=
  match ents with
  | [] => rest = data
  | (n, e) :: ents' =>
      Unmarshal d data = (n, e) /\ 0 < n <= len data
      /\ ceschema.SequenceNumber e = s
      /\ ceschema.is_End (ceschema.EntryType e) = false
      /\ events_run d (s + 1) (drop (Z.to_nat n) data) ents' rest
  end.

(** The index records of such a run that starts [off] bytes into a buffer
    whose first byte sits at file offset [base]: one per entry, at
    [base + off] for the entry found [off] bytes in, with the byte count as
    length. *)
Fixpoint index_run (base off : Z) (ents : list (Z * Entry)) : list Index :=
  match ents with
  | [] => []
  | (n, e) :: ents' =>
      NewIndex (add64 base off) (wrap32 n) e :: index_run base (off + n) ents'
  end.

(** A decoder reports a byte count that is a non-negative [int]. *)
Definition counts_ok (d : EntryDecoder) : Prop :=
  forall bs : bytes, 0 <= fst (Unmarshal d bs) < 2 ^ 63.

(** The block with its [archived] flag overwritten. *)
Definition set_archived (b : vsBlock) (z : Z) : vsBlock :=
  set_progress b (mkActx (seq (actx b)) (offset (actx b)) z) (indexes b).

(** The outcome of a commit with the [archived] flag of the block it
    leaves blanked out. *)
Definition blank_archived (r : res ((bool * option error) * vsBlock))
  : res ((bool * option error) * vsBlock) :=
  match r with
  | Ret (x, b') => Ret (x, set_archived b' 0)
  | Panic => Panic
  | NoFuel => NoFuel
  end.

(** A decoder never claims more bytes than it was given. *)
Definition counts_within (d : EntryDecoder) : Prop :=
  forall bs : bytes, 0 <= fst (Unmarshal d bs) <= len bs.

(** On the tails of [data], the decoder reports a byte count that is a
    non-negative [int]. *)
Definition tail_counts (d : EntryDecoder) (data : bytes) : Prop :=
  forall k : nat, 0 <= fst (Unmarshal d (drop k data)) < 2 ^ 63.

(** The buffer starts with an entry below the canonical sequence number. *)
Definition overlapping (b : vsBlock) (data : bytes) : Prop :=
  0 < len data
  /\ ceschema.SequenceNumber (snd (Unmarshal (dec b) data)) < seq (actx b).

(** The index table is dense: its records carry consecutive sequence
    numbers, the last of them [skipped + 1] below the canonical one. *)
Definition dense (b : vsBlock) (skipped : Z) : Prop :=
  forall (i : nat) (idx : Index),
    indexes b !! i = Some idx ->
    index_seq idx
    = wrap64 (seq (actx b) - skipped - len (indexes b) + Z.of_nat i).

(** * Properties *)

(** ** Arithmetic on machine integers *)

Lemma wrap64_small (z : Z) : in_int64 z -> wrap64 z = z.
Proof.
  unfold in_int64, wrap64. intros Hz.
  rewrite Z.mod_small; [lia|].
  change (2 ^ 64) with (2 ^ 63 + 2 ^ 63). lia.
Qed.

Lemma add64_small (a b : Z) : in_int64 (a + b) -> add64 a b = a + b.
Proof. apply wrap64_small. Qed.

Lemma sub64_small (a b : Z) : in_int64 (a - b) -> sub64 a b = a - b.
Proof. apply wrap64_small. Qed.

Lemma len_nonneg {A} (l : list A) : 0 <= len l.
Proof. unfold len. lia. Qed.

Lemma len_app {A} (l k : list A) : len (l ++ k) = len l + len k.
Proof. unfold len. rewrite length_app. lia. Qed.

Lemma len_nil_iff {A} (l : list A) : len l = 0 <-> l = [].
Proof.
  unfold len. destruct l; simpl; split; intros H; try done; lia.
Qed.

(** ** Slices *)

Lemma length_copy_into {A} (buf : list A) (k : nat) (src : list A) :
  (k <= length buf)%nat -> length (copy_into buf k src) = length buf.
Proof.
  intros Hk. unfold copy_into.
  rewrite !length_app, !length_take, length_drop. lia.
Qed.

Lemma slice_from_Ret {A} (s t : list A) (k : Z) :
  slice_from s k = Ret t -> 0 <= k <= len s /\ t = drop (Z.to_nat k) s.
Proof.
  unfold slice_from. intros H.
  destruct (k <? 0) eqn:E1; [discriminate|].
  destruct (len s <? k) eqn:E2; [discriminate|].
  simpl in H. injection H as <-. split; [lia|done].
Qed.

(** ** trimFragments *)

Lemma trimFragments_loop_spec (off : Z) (rest pre : list Fragment) :
  trimFragments_loop (length rest) (length pre) off (pre ++ rest) = trim_spec off rest.
Proof.
  revert pre. induction rest as [|g rest IH]; intros pre; simpl; [done|].
  rewrite list_lookup_middle by done.
  destruct (EndOffset g <=? off).
  - rewrite <- (IH (pre ++ [g])), <- app_assoc, length_app. simpl.
    by rewrite Nat.add_1_r.
  - destruct (off <? StartOffset g); [done|].
    destruct pre as [|h pre]; simpl; [done|].
    by rewrite drop_app_length.
Qed.

Lemma trimFragments_spec (ctx : Context) (b : vsBlock) (frags : list Fragment) :
  trimFragments ctx b frags = trim_spec (offset (actx b)) frags.
Proof. apply (trimFragments_loop_spec _ frags []). Qed.

Lemma trim_spec_discard (W : Z) (pre rest : list Fragment) :
  Forall (fun g => EndOffset g <= W) pre ->
  trim_spec W (pre ++ rest) = trim_spec W rest.
Proof.
  induction 1 as [|g pre Hg _ IH]; simpl; [done|].
  destruct (Z.leb_spec (EndOffset g) W); [done|lia].
Qed.

(** What trimming keeps is a suffix of the list, found after a run of
    discarded fragments, and its head straddles or meets the offset. *)
Lemma trim_spec_kept (W : Z) (frags kept : list Fragment) :
  trim_spec W frags = (kept, None) -> kept <> [] ->
  exists pre k post,
    frags = pre ++ k :: post /\ kept = k :: post /\
    Forall (fun g => EndOffset g <= W) pre /\
    StartOffset k <= W < EndOffset k.
Proof.
  induction frags as [|g frags IH]; simpl; intros H Hne.
  - by injection H as <-.
  - destruct (Z.leb_spec (EndOffset g) W) as [Hle|Hgt].
    + destruct (IH H Hne) as (pre & k & post & -> & -> & Hpre & Hk).
      exists (g :: pre), k, post. repeat split; try done; try lia.
      by constructor.
    + destruct (Z.ltb_spec W (StartOffset g)); [discriminate|].
      injection H as <-. exists [], g, frags. repeat split; try done; lia.
Qed.

Lemma trim_spec_error (W : Z) (frags kept : list Fragment) (e : error) :
  trim_spec W frags = (kept, Some e) -> kept = [] /\ e = ErrInternal.
Proof.
  induction frags as [|g frags IH]; simpl; intros H; [discriminate|].
  destruct (EndOffset g <=? W); [auto|].
  destruct (W <? StartOffset g); [|discriminate].
  by injection H as <- <-.
Qed.

(** ** checkFragments *)

Lemma checkFragments_loop_spec (rest pre : list Fragment) (kept : Fragment) :
  checkFragments_loop (length rest) (S (length pre)) (pre ++ kept :: rest)
  = contiguous_from kept rest.
Proof.
  revert pre kept. induction rest as [|next rest IH]; intros pre kept; simpl; [done|].
  rewrite Nat.sub_0_r, list_lookup_middle by done.
  replace (pre ++ kept :: next :: rest) with ((pre ++ [kept]) ++ next :: rest)
    by (by rewrite <- app_assoc).
  rewrite list_lookup_middle by (rewrite length_app; simpl; lia).
  destruct (negb (EndOffset kept =? StartOffset next)); [done|].
  rewrite <- (IH (pre ++ [kept]) next), length_app. simpl.
  by rewrite Nat.add_1_r.
Qed.

Lemma checkFragments_spec (ctx : Context) (b : vsBlock) (kept : Fragment)
    (rest : list Fragment) :
  checkFragments ctx b (kept :: rest) = contiguous_from kept rest.
Proof.
  unfold checkFragments. simpl. rewrite Nat.sub_0_r.
  apply (checkFragments_loop_spec rest [] kept).
Qed.

Lemma contiguous_from_cases (kept : Fragment) (rest : list Fragment) :
  contiguous_from kept rest = None \/ contiguous_from kept rest = Some ErrInternal.
Proof.
  revert kept. induction rest as [|next rest IH]; intros kept; simpl; [auto|].
  destruct (negb (EndOffset kept =? StartOffset next)); auto.
Qed.

Lemma contiguous_from_broken (kept : Fragment) (rest : list Fragment) :
  contiguous_from kept rest = Some ErrInternal <-> broken_pair (kept :: rest).
Proof.
  revert kept. induction rest as [|next rest IH]; intros kept; simpl.
  - split; [discriminate|].
    intros (i & x & y & _ & Hy & _). destruct i; discriminate.
  - destruct (Z.eqb_spec (EndOffset kept) (StartOffset next)) as [Heq|Hne]; simpl.
    + rewrite IH. split.
      * intros (i & x & y & Hx & Hy & Hxy). by exists (S i), x, y.
      * intros (i & x & y & Hx & Hy & Hxy). destruct i as [|i].
        -- simpl in Hx, Hy. congruence.
        -- by exists i, x, y.
    + split; [|done]. intros _. by exists 0%nat, kept, next.
Qed.

Lemma checkFragments_broken (ctx : Context) (b : vsBlock) (frags : list Fragment) :
  checkFragments ctx b frags = Some ErrInternal <-> broken_pair frags.
Proof.
  destruct frags as [|kept rest].
  - split; [discriminate|]. intros (i & x & y & Hx & _). destruct i; discriminate.
  - rewrite checkFragments_spec. apply contiguous_from_broken.
Qed.

Lemma checkFragments_cases (ctx : Context) (b : vsBlock) (frags : list Fragment) :
  checkFragments ctx b frags = None \/ checkFragments ctx b frags = Some ErrInternal.
Proof.
  destruct frags as [|kept rest]; [by left|].
  rewrite checkFragments_spec. apply contiguous_from_cases.
Qed.

(** ** CommitAppend, exit by exit *)

Lemma CommitAppend_exit (fuel : nat) (ctx : Context) (b : vsBlock)
    (frags : list Fragment) (a : bool) (e : option error) (b' : vsBlock) :
  CommitAppend fuel ctx b frags = Ret ((a, e), b') ->
  commit_exit fuel ctx b frags a e b'.
Proof.
  unfold CommitAppend.
  destruct (trimFragments ctx b frags) as [kept [err|]] eqn:Htrim.
  { intros [= <- <- <-]. by eapply exit_trim_error. }
  destruct (len kept =? 0) eqn:Hlen.
  { intros [= <- <- <-]. apply Z.eqb_eq, len_nil_iff in Hlen. subst kept.
    by apply exit_nothing_left. }
  assert (kept <> []) as Hne.
  { intros ->. discriminate. }
  destruct (checkFragments ctx b kept) as [err|] eqn:Hcheck.
  { intros [= <- <- <-]. by eapply exit_discontinuous. }
  destruct (coalesce kept) as [[base data]| |] eqn:Hco; simpl; try discriminate.
  destruct (buildIndexes fuel ctx b base data) as [[[[ix cnt] arch] [err|]]| |] eqn:Hbi;
    simpl; try discriminate.
  { intros [= <- <- <-]. by eapply exit_corrupted. }
  destruct (negb arch && (len ix =? 0)) eqn:Hshort.
  { intros [= <- <- <-].
    apply andb_true_iff in Hshort as [Harch Hix].
    apply negb_true_iff in Harch. apply Z.eqb_eq, len_nil_iff in Hix. subst.
    by eapply exit_redelivered. }
  assert (arch = true \/ ix <> []) as Hsome.
  { destruct arch; [by left|right]. intros ->. discriminate. }
  destruct (slice_from data (sub64 (offset (actx b)) base)) as [tail| |] eqn:Hsl;
    simpl; try discriminate.
  destruct (WriteAt (f b) tail (offset (actx b))) as [[n [err|]] f'] eqn:Hw.
  - intros [= <- <- <-]. by eapply exit_write_error.
  - intros [= <- <- <-]. by eapply exit_committed.
Qed.

Lemma commit_exit_CommitAppend (fuel : nat) (ctx : Context) (b : vsBlock)
    (frags : list Fragment) (a : bool) (e : option error) (b' : vsBlock) :
  commit_exit fuel ctx b frags a e b' ->
  CommitAppend fuel ctx b frags = Ret ((a, e), b').
Proof.
  assert (forall kept : list Fragment, kept <> [] -> (len kept =? 0) = false) as Hlen.
  { intros kept Hne. apply Z.eqb_neq. by rewrite len_nil_iff. }
  assert (forall (arch : bool) (ix : list Index),
             arch = true \/ ix <> [] -> (negb arch && (len ix =? 0)) = false) as Hshort.
  { intros arch ix [->|Hix]; [done|]. apply andb_false_iff. right.
    apply Z.eqb_neq. by rewrite len_nil_iff. }
  unfold CommitAppend.
  destruct 1 as [kept err Ht | Ht | kept err Ht Hne Hc
                | kept base data ix cnt arch err Ht Hne Hc Hco Hbi
                | kept base data cnt Ht Hne Hc Hco Hbi
                | kept base data ix cnt arch tail n err f' Ht Hne Hc Hco Hbi Hsome Hsl Hw
                | kept base data ix cnt arch tail n f' Ht Hne Hc Hco Hbi Hsome Hsl Hw];
    rewrite Ht; try done;
    rewrite (Hlen _ Hne), Hc; try done;
    rewrite Hco; simpl; rewrite Hbi; simpl; try done;
    rewrite (Hshort _ _ Hsome), Hsl; simpl; by rewrite Hw.
Qed.

Lemma WriteAt_error (fl : File) (p : bytes) (off n : Z) (err : error) (fl' : File) :
  WriteAt fl p off = ((n, Some err), fl') -> exists code, err = ErrIO code.
Proof.
  unfold WriteAt. destruct (fault fl (length (writes fl))) as [[k code]|].
  - intros [= _ <- _]. by exists code.
  - discriminate.
Qed.

Lemma WriteAt_success (fl : File) (p : bytes) (off n : Z) (fl' : File) :
  WriteAt fl p off = ((n, None), fl') ->
  n = len p /\ writes fl' = writes fl ++ [(off, p)].
Proof.
  unfold WriteAt. destruct (fault fl (length (writes fl))) as [[k code]|].
  - discriminate.
  - by intros [= <- <-].
Qed.

(** ** buildIndexes *)

Lemma buildIndexes_iter_error (b : vsBlock) (base : Z) (data : bytes) (s : scan)
    (ix : list Index) (cnt : Z) (arch : bool) (err : error) :
  buildIndexes_iter b base data s = Return (ix, cnt, arch, Some err) ->
  err = errCorruptedFragment /\ ix = [] /\ cnt = 0 /\ arch = false.
Proof.
  unfold buildIndexes_iter.
  destruct (negb (sc_off s <? len data)); [discriminate|].
  destruct (slice_from data (sc_off s)) as [rest| |]; try discriminate.
  destruct (Unmarshal (dec b) rest) as [n entry].
  destruct (ceschema.SequenceNumber entry =? sc_expected s).
  - destruct (ceschema.is_End (ceschema.EntryType entry)); [|discriminate].
    destruct (negb (add64 (sc_off s) n =? len data)); [|discriminate].
    by intros [= <- <- <- <-].
  - destruct ((ceschema.SequenceNumber entry <? sc_expected s)
              && (len (sc_indexes s) =? 0)); [discriminate|].
    by intros [= <- <- <- <-].
Qed.

Lemma buildIndexes_loop_error (fuel : nat) (b : vsBlock) (base : Z) (data : bytes)
    (s : scan) (ix : list Index) (cnt : Z) (arch : bool) (err : error) :
  buildIndexes_loop fuel b base data s = Ret (ix, cnt, arch, Some err) ->
  err = errCorruptedFragment.
Proof.
  revert s. induction fuel as [|fuel IH]; intros s; simpl; [discriminate|].
  destruct (buildIndexes_iter b base data s) as [s'|r|] eqn:Hit; try discriminate.
  - apply IH.
  - intros [= ->]. by apply buildIndexes_iter_error in Hit as [-> _].
Qed.

(** A turn of the loop that hands back the state it was given is repeated
    for ever. *)
Lemma buildIndexes_loop_spins (b : vsBlock) (base : Z) (data : bytes) (s : scan) :
  buildIndexes_iter b base data s = Again s ->
  forall fuel, buildIndexes_loop fuel b base data s = NoFuel.
Proof.
  intros Hit fuel. induction fuel as [|fuel IH]; simpl; [done|].
  by rewrite Hit.
Qed.

(** The [continue] of the sequence check is such a turn. *)
Lemma buildIndexes_iter_continue (b : vsBlock) (base : Z) (data rest : bytes)
    (s : scan) (n : Z) (entry : Entry) :
  sc_off s < len data ->
  slice_from data (sc_off s) = Ret rest ->
  Unmarshal (dec b) rest = (n, entry) ->
  ceschema.SequenceNumber entry < sc_expected s ->
  sc_indexes s = [] ->
  buildIndexes_iter b base data s = Again s.
Proof.
  intros Hoff Hsl Hdec Hseq Hix. unfold buildIndexes_iter.
  destruct (Z.ltb_spec (sc_off s) (len data)); [simpl|lia].
  rewrite Hsl, Hdec, Hix.
  destruct (Z.eqb_spec (ceschema.SequenceNumber entry) (sc_expected s)); [lia|].
  destruct (Z.ltb_spec (ceschema.SequenceNumber entry) (sc_expected s)); [done|lia].
Qed.

Lemma buildIndexes_loop_after (k fuel : nat) (b : vsBlock) (base : Z)
    (data : bytes) (s s' : scan) :
  scan_after k b base data s = Some s' ->
  buildIndexes_loop (k + fuel) b base data s = buildIndexes_loop fuel b base data s'.
Proof.
  revert s. induction k as [|k IH]; intros s; simpl.
  - by intros [= ->].
  - destruct (buildIndexes_iter b base data s) as [s1| |]; try discriminate.
    apply IH.
Qed.

(** Once the scan has something to scan or an index in hand, it cannot
    come back empty-handed. *)
Lemma buildIndexes_loop_progress (fuel : nat) (b : vsBlock) (base : Z)
    (data : bytes) (s : scan) (ix : list Index) (cnt : Z) (arch : bool) :
  sc_off s < len data \/ sc_indexes s <> [] ->
  buildIndexes_loop fuel b base data s = Ret (ix, cnt, arch, None) ->
  arch = true \/ ix <> [].
Proof.
  revert s. induction fuel as [|fuel IH]; intros s Hs; simpl; [discriminate|].
  destruct (buildIndexes_iter b base data s) as [s'|r|] eqn:Hit; try discriminate.
  - apply IH. revert Hit. unfold buildIndexes_iter.
    destruct (negb (sc_off s <? len data)); [discriminate|].
    destruct (slice_from data (sc_off s)) as [rest| |]; try discriminate.
    destruct (Unmarshal (dec b) rest) as [n entry].
    destruct (ceschema.SequenceNumber entry =? sc_expected s).
    + destruct (ceschema.is_End (ceschema.EntryType entry)).
      * destruct (negb (add64 (sc_off s) n =? len data)); discriminate.
      * intros [= <-]. right. simpl. by destruct (sc_indexes s).
    + destruct ((ceschema.SequenceNumber entry <? sc_expected s)
                && (len (sc_indexes s) =? 0)); [|discriminate].
      by intros [= <-].
  - intros [= ->]. revert Hit. unfold buildIndexes_iter.
    destruct (Z.ltb_spec (sc_off s) (len data)) as [Hlt|Hge]; simpl.
    + destruct (slice_from data (sc_off s)) as [rest| |]; try discriminate.
      destruct (Unmarshal (dec b) rest) as [n entry].
      destruct (ceschema.SequenceNumber entry =? sc_expected s).
      * destruct (ceschema.is_End (ceschema.EntryType entry)); [|discriminate].
        destruct (negb (add64 (sc_off s) n =? len data)); [discriminate|].
        intros [= <- <- <-]. by left.
      * destruct ((ceschema.SequenceNumber entry <? sc_expected s)
                  && (len (sc_indexes s) =? 0)); discriminate.
    + intros [= <- <- <-]. right. destruct Hs; [lia|done].
Qed.

(** ** Errors of a commit *)

Lemma commit_error_inv (fuel : nat) (ctx : Context) (b : vsBlock)
    (frags : list Fragment) (a : bool) (err : error) (b' : vsBlock) :
  CommitAppend fuel ctx b frags = Ret ((a, Some err), b') ->
  a = false /\
  (err = ErrInternal \/ err = errCorruptedFragment \/ exists code, err = ErrIO code) /\
  actx b' = actx b /\ indexes b' = indexes b.
Proof.
  intros H. apply CommitAppend_exit in H.
  remember (Some err) as oe eqn:Hoe.
  destruct H as [kept e Ht | | kept e Ht Hne Hc
                | kept base data ix cnt arch e Ht Hne Hc Hco Hbi
                | | kept base data ix cnt arch tail n e f' Ht Hne Hc Hco Hbi Hsome Hsl Hw
                | ]; try discriminate; injection Hoe as ->.
  - rewrite trimFragments_spec in Ht. apply trim_spec_error in Ht as [_ ->]. auto.
  - destruct (checkFragments_cases ctx b kept) as [Hn|Hs]; rewrite Hc in *.
    + discriminate.
    + injection Hs as ->. auto.
  - apply buildIndexes_loop_error in Hbi as ->. auto.
  - apply WriteAt_error in Hw as [code ->]. repeat split; eauto.
Qed.

(** ** The trim phase *)

(** C1. With [W] the canonical offset, [trimFragments] walks the list from
    the front: after a run [pre] of fragments that end at or before [W],
    the next fragment [f] is discarded as well if [f.endOffset <= W], makes
    the call fail with [ErrInternal] if [f.startOffset > W], and is kept
    together with everything after it otherwise. When every fragment is
    discarded, nothing is kept and [CommitAppend] returns [(false, nil)]
    with the block exactly as it was. *)
Theorem trimFragments_walk (ctx : Context) (b : vsBlock) (pre : list Fragment)
    (f : Fragment) (post : list Fragment) (fuel : nat) :
  Forall (fun g => EndOffset g <= offset (actx b)) pre ->
  trimFragments ctx b (pre ++ f :: post)
  = (if EndOffset f <=? offset (actx b) then trimFragments ctx b post
     else if offset (actx b) <? StartOffset f then ([], Some ErrInternal)
     else (f :: post, None))
  /\ (offset (actx b) < EndOffset f -> offset (actx b) < StartOffset f ->
      CommitAppend fuel ctx b (pre ++ f :: post) = Ret ((false, Some ErrInternal), b))
  /\ trimFragments ctx b pre = ([], None)
  /\ CommitAppend fuel ctx b pre = Ret ((false, None), b).
Proof.
  intros Hpre.
  assert (trimFragments ctx b pre = ([], None)) as Hall.
  { rewrite trimFragments_spec, <- (app_nil_r pre). by rewrite trim_spec_discard. }
  assert (trimFragments ctx b (pre ++ f :: post)
          = (if EndOffset f <=? offset (actx b) then trimFragments ctx b post
             else if offset (actx b) <? StartOffset f then ([], Some ErrInternal)
             else (f :: post, None))) as Hwalk.
  { rewrite !trimFragments_spec, trim_spec_discard by done. done. }
  split; [done|]. split; [|split; [done|]].
  - intros Hend Hstart. apply commit_exit_CommitAppend.
    apply (exit_trim_error _ _ _ _ []). rewrite Hwalk.
    destruct (Z.leb_spec (EndOffset f) (offset (actx b))); [lia|].
    destruct (Z.ltb_spec (offset (actx b)) (StartOffset f)); [done|lia].
  - apply commit_exit_CommitAppend. by apply exit_nothing_left.
Qed.

Lemma trimFragments_walk_witness :
  trimFragments sample.live sample.after0 [sample.f0; sample.f1; sample.f2]
  = ([sample.f1; sample.f2], None)
  /\ CommitAppend 10 sample.live sample.after0 [sample.f0]
     = Ret ((false, None), sample.after0).
Proof.
  destruct (trimFragments_walk sample.live sample.after0
              [sample.f0] sample.f1 [sample.f2] 10) as (Hwalk & _ & _ & Hcommit).
  - repeat constructor. vm_compute. discriminate.
  - split; [exact Hwalk|exact Hcommit].
Defined.

(** C10. An empty fragment list: [CommitAppend] returns [(false, nil)] and
    the block, its append context and index table included, is unchanged. *)
Theorem CommitAppend_no_fragments (fuel : nat) (ctx : Context) (b : vsBlock) :
  CommitAppend fuel ctx b [] = Ret ((false, None), b)
  /\ trimFragments ctx b [] = ([], None).
Proof. split; reflexivity. Qed.

(** ** The contiguity check *)

(** C7. For the list [kept] that trimming leaves, [CommitAppend] fails with
    [ErrInternal] exactly when some adjacent pair of [kept] has
    [kept.endOffset <> next.startOffset]; this is the verdict of
    [checkFragments], which does not look at the block: the start of the
    head is not compared with the canonical offset again. *)
Theorem checkFragments_contiguity (fuel : nat) (ctx : Context) (b : vsBlock)
    (frags kept : list Fragment) :
  trimFragments ctx b frags = (kept, None) ->
  (fails_with (CommitAppend fuel ctx b frags) ErrInternal <-> broken_pair kept)
  /\ (checkFragments ctx b kept = Some ErrInternal <-> broken_pair kept)
  /\ (forall b0 : vsBlock, checkFragments ctx b0 kept = checkFragments ctx b kept).
Proof.
  intros Htrim. split; [|split; [apply checkFragments_broken|done]].
  split.
  - intros (a & b' & H). apply CommitAppend_exit in H.
    remember (Some ErrInternal) as oe eqn:Hoe.
    destruct H as [k e Ht | | k e Ht Hne Hc
                  | k base data ix cnt arch e Ht Hne Hc Hco Hbi
                  | | k base data ix cnt arch tail n e f' Ht Hne Hc Hco Hbi Hsome Hsl Hw
                  | ]; try discriminate; injection Hoe as ->.
    + rewrite Htrim in Ht. discriminate.
    + rewrite Htrim in Ht. injection Ht as <-. by apply checkFragments_broken in Hc.
    + apply buildIndexes_loop_error in Hbi. discriminate.
    + apply WriteAt_error in Hw as [code Hcode]. discriminate.
  - intros Hbroken. exists false, b. apply commit_exit_CommitAppend.
    eapply exit_discontinuous; [exact Htrim| |by apply checkFragments_broken].
    destruct Hbroken as (i & x & y & Hx & _). intros ->. destruct i; discriminate.
Qed.

Lemma checkFragments_contiguity_witness :
  fails_with (CommitAppend 10 sample.live sample.fresh [sample.f0; sample.f2]) ErrInternal
  <-> broken_pair [sample.f0; sample.f2].
Proof.
  apply (checkFragments_contiguity 10 sample.live sample.fresh
           [sample.f0; sample.f2] [sample.f0; sample.f2]).
  reflexivity.
Defined.

(** ** Failure leaves the block's progress alone *)

(** C4. Whenever [CommitAppend] returns an error (a gap found by the trim,
    discontinuous fragments, a corrupted buffer, a failed file write), the
    canonical append context ([seq], [offset], [archived]) and the index
    table are exactly those of before the call; the flag returned is
    [false] and the error is one of these three kinds. *)
Theorem CommitAppend_atomic_on_error (fuel : nat) (ctx : Context) (b : vsBlock)
    (frags : list Fragment) (a : bool) (err : error) (b' : vsBlock) :
  CommitAppend fuel ctx b frags = Ret ((a, Some err), b') ->
  actx b' = actx b /\ indexes b' = indexes b /\ a = false
  /\ (err = ErrInternal \/ err = errCorruptedFragment \/ exists code, err = ErrIO code).
Proof.
  intros H. apply commit_error_inv in H as (-> & Hkind & Hactx & Hix). auto.
Qed.

Lemma CommitAppend_atomic_on_error_witness :
  exists b' : vsBlock,
    CommitAppend 10 sample.live (sample.fresh_with sample.fail_first) [sample.f01]
    = Ret ((false, Some (ErrIO 5)), b')
    /\ actx b' = mkActx 0 64 0 /\ indexes b' = [].
Proof.
  eexists. split; [reflexivity|].
  split; eapply (CommitAppend_atomic_on_error 10 sample.live
                   (sample.fresh_with sample.fail_first) [sample.f01]);
    reflexivity.
Defined.

(** ** Cancellation *)

(** C5, as the spec states it, fails: a commit made under a context that
    is already cancelled goes through, writes the file and advances the
    block. *)
Lemma CommitAppend_cancelled_goes_through :
  ctx_done sample.cancelled = true
  /\ CommitAppend 10 sample.cancelled sample.fresh [sample.f0]
     = Ret ((false, None), sample.after0)
  /\ actx sample.after0 <> actx sample.fresh
  /\ writes (f sample.after0) <> writes (f sample.fresh)
  /\ ~ fails_with (CommitAppend 10 sample.cancelled sample.fresh [sample.f0]) ErrCanceled.
Proof.
  split; [reflexivity|]. split; [reflexivity|].
  split; [discriminate|]. split; [discriminate|].
  intros (a & b' & H).
  assert (CommitAppend 10 sample.cancelled sample.fresh [sample.f0]
          = Ret ((false, None), sample.after0)) as Hrun by reflexivity.
  rewrite Hrun in H. discriminate.
Qed.

(** C5, amended. [CommitAppend] does not consult the cancellation token:
    the call returns the same result and makes the same changes whether
    the token has fired or not, and it never fails with a cancellation
    error. *)
Theorem CommitAppend_ignores_cancellation (fuel : nat) (ctx ctx' : Context)
    (b : vsBlock) (frags : list Fragment) :
  CommitAppend fuel ctx b frags = CommitAppend fuel ctx' b frags
  /\ ~ fails_with (CommitAppend fuel ctx b frags) ErrCanceled.
Proof.
  split; [reflexivity|].
  intros (a & b' & H). apply commit_error_inv in H as (_ & Hkind & _).
  destruct Hkind as [H|[H|[code H]]]; discriminate.
Qed.

(** ** The sequence check of the scan *)

(** A buffer whose first entry carries a sequence number below the
    canonical one: the scan takes the [continue] at offset 0 with no index
    built, and never leaves it. *)
Lemma buildIndexes_overlap_spins (ctx : Context) (b : vsBlock) (base : Z)
    (data : bytes) (n : Z) (entry : Entry) :
  0 < len data ->
  Unmarshal (dec b) data = (n, entry) ->
  ceschema.SequenceNumber entry < seq (actx b) ->
  forall fuel, buildIndexes fuel ctx b base data = NoFuel.
Proof.
  intros Hlen Hdec Hseq fuel. unfold buildIndexes.
  apply buildIndexes_loop_spins.
  eapply buildIndexes_iter_continue; simpl; eauto.
  unfold slice_from. simpl.
  destruct (Z.ltb_spec (len data) 0); [lia|done].
Qed.

Lemma CommitAppend_scan_spins (ctx : Context) (b : vsBlock)
    (frags kept : list Fragment) (base : Z) (data : bytes) :
  trimFragments ctx b frags = (kept, None) -> kept <> [] ->
  checkFragments ctx b kept = None ->
  coalesce kept = Ret (base, data) ->
  (forall fuel, buildIndexes fuel ctx b base data = NoFuel) ->
  forall fuel, CommitAppend fuel ctx b frags = NoFuel.
Proof.
  intros Ht Hne Hc Hco Hspin fuel. unfold CommitAppend. rewrite Ht.
  destruct (Z.eqb_spec (len kept) 0) as [H0|_].
  { by apply len_nil_iff in H0. }
  rewrite Hc, Hco. simpl. by rewrite Hspin.
Qed.

(** C3. The block has committed entry 0 (canonical [seq] 1, [offset] 95)
    and is handed one fragment that starts at 64 and holds entries 0 and 1.
    The trim keeps it, the scan meets entry 0 below the expected sequence
    number with no index built, and the [continue] taken there leaves
    [off] where it is: whatever the number of turns allowed, the call has
    not returned, and entry 1 is never committed. *)
Theorem CommitAppend_overlap_never_returns (fuel : nat) :
  trimFragments sample.live sample.after0 [sample.f01] = ([sample.f01], None)
  /\ CommitAppend fuel sample.live sample.after0 [sample.f01] = NoFuel.
Proof.
  split; [reflexivity|].
  apply (CommitAppend_scan_spins sample.live sample.after0 [sample.f01]
           [sample.f01] 64 (Payload sample.f01)); try done.
  apply (buildIndexes_overlap_spins sample.live sample.after0 64
           (Payload sample.f01) 31
           (ceschema.mkEntry ceschema.CloudEvent 0 1000 [])); done.
Qed.

(** ** The End entry *)

(** C8, as the spec states it, fails: a buffer made of one End entry that
    ends the buffer exactly, but whose sequence number is not the expected
    one, is rejected as corrupted and the block is not archived. *)
Lemma End_entry_with_wrong_seq_is_corrupted :
  Unmarshal (dec sample.fresh) (Payload sample.fend_seq5)
  = (31, ceschema.mkEntry ceschema.End 5 1000 [])
  /\ 0 + 31 = len (Payload sample.fend_seq5)
  /\ buildIndexes 10 sample.live sample.fresh 64 (Payload sample.fend_seq5)
     = Ret ([], 0, false, Some errCorruptedFragment)
  /\ CommitAppend 10 sample.live sample.fresh [sample.fend_seq5]
     = Ret ((false, Some errCorruptedFragment), sample.fresh).
Proof. repeat split. Qed.

(** C8, amended. Let the scan of the coalesced buffer have reached, after
    [k] turns, an entry of type End that passes the sequence check (its
    sequence number is the expected one). If its encoding does not end at
    the last byte of the buffer, the scan and the commit fail with
    [errCorruptedFragment] and the block is unchanged. If it does, the scan
    stops there with [archived] set and with the indexes built before it,
    none for the End entry; a commit that then returns without error
    returns [true] and has set [archived] in the canonical context. *)
Theorem buildIndexes_End_placement (k fuel : nat) (ctx : Context) (b : vsBlock)
    (frags kept : list Fragment) (base : Z) (data rest : bytes) (s : scan)
    (n : Z) (entry : Entry) :
  trimFragments ctx b frags = (kept, None) -> kept <> [] ->
  checkFragments ctx b kept = None ->
  coalesce kept = Ret (base, data) ->
  scan_after k b base data (scan_start b) = Some s ->
  sc_off s < len data ->
  slice_from data (sc_off s) = Ret rest ->
  Unmarshal (dec b) rest = (n, entry) ->
  ceschema.EntryType entry = ceschema.End ->
  ceschema.SequenceNumber entry = sc_expected s ->
  (add64 (sc_off s) n <> len data ->
     buildIndexes (k + S fuel) ctx b base data
     = Ret ([], 0, false, Some errCorruptedFragment)
     /\ CommitAppend (k + S fuel) ctx b frags
        = Ret ((false, Some errCorruptedFragment), b))
  /\ (add64 (sc_off s) n = len data ->
        buildIndexes (k + S fuel) ctx b base data
        = Ret (sc_indexes s, sub64 (add64 (sc_expected s) 1) (seq (actx b)), true, None)
        /\ forall (a : bool) (b' : vsBlock),
             CommitAppend (k + S fuel) ctx b frags = Ret ((a, None), b') ->
             a = true /\ archived (actx b') = 1
             /\ indexes b' = indexes b ++ sc_indexes s).
Proof.
  intros Ht Hne Hc Hco Hafter Hoff Hsl Hdec Hty Hseq.
  assert (buildIndexes (k + S fuel) ctx b base data
          = if add64 (sc_off s) n =? len data
            then Ret (sc_indexes s, sub64 (add64 (sc_expected s) 1) (seq (actx b)),
                      true, None)
            else Ret ([], 0, false, Some errCorruptedFragment)) as Hscan.
  { unfold buildIndexes. fold (scan_start b).
    rewrite (buildIndexes_loop_after k (S fuel) b base data _ s Hafter).
    simpl. unfold buildIndexes_iter.
    destruct (Z.ltb_spec (sc_off s) (len data)); [simpl|lia].
    rewrite Hsl, Hdec, Hseq, Z.eqb_refl, Hty. simpl.
    by destruct (add64 (sc_off s) n =? len data). }
  split; intros Hend.
  - apply Z.eqb_neq in Hend. rewrite Hend in Hscan. split; [done|].
    apply commit_exit_CommitAppend. by eapply exit_corrupted.
  - apply Z.eqb_eq in Hend. rewrite Hend in Hscan. split; [done|].
    intros a b' H. apply CommitAppend_exit in H.
    remember None as oe eqn:Hoe.
    destruct H as [ | Ht' | | | k0 base0 data0 cnt Ht' Hne' Hc' Hco' Hbi
                  | | k0 base0 data0 ix cnt arch tail m f' Ht' Hne' Hc' Hco' Hbi
                      Hsome Hsl' Hw]; try discriminate.
    + rewrite Ht in Ht'. by injection Ht' as ->.
    + rewrite Ht in Ht'. injection Ht' as <-.
      rewrite Hco in Hco'. injection Hco' as <- <-.
      rewrite Hscan in Hbi. discriminate.
    + rewrite Ht in Ht'. injection Ht' as <-.
      rewrite Hco in Hco'. injection Hco' as <- <-.
      rewrite Hscan in Hbi. by injection Hbi as <- <- <-.
Qed.

Lemma buildIndexes_End_placement_witness :
  buildIndexes 3 sample.live sample.fresh 64 sample.sealed_data
  = Ret ([mkIndex 64 31 0 1000; mkIndex 95 31 1 1000], 3, true, None)
  /\ forall (a : bool) (b' : vsBlock),
       CommitAppend 3 sample.live sample.fresh sample.sealed = Ret ((a, None), b') ->
       a = true /\ archived (actx b') = 1
       /\ indexes b' = [mkIndex 64 31 0 1000; mkIndex 95 31 1 1000].
Proof.
  apply (buildIndexes_End_placement 2 0 sample.live sample.fresh sample.sealed
           sample.sealed 64 sample.sealed_data (Payload sample.fend2)
           (mkScan 62 2 [mkIndex 64 31 0 1000; mkIndex 95 31 1 1000])
           31 (ceschema.mkEntry ceschema.End 2 1000 []));
    try reflexivity.
  discriminate.
Defined.

(** ** NewAppendContext *)

Lemma deref_fresh (b : vsBlock) (h : list appendContext) (c : appendContext) :
  deref (mkWorld b (h ++ [c])) (Detached (length h)) = Ret c.
Proof. simpl. by rewrite list_lookup_middle. Qed.

Lemma deref_assign (w : World) (l : nat) (c c' : appendContext) :
  heap w !! l = Some c ->
  deref (assign w (Detached l) c') (Detached l) = Ret c'
  /\ blk (assign w (Detached l) c') = blk w.
Proof.
  intros Hl. simpl. split; [|done].
  rewrite list_lookup_insert_eq; [done|]. by eapply lookup_lt_Some.
Qed.

(** C9. With a last fragment, the context returned by [NewAppendContext]
    has [seq] one above the sequence number of the fragment's last entry,
    [offset] at the fragment's end, and is archived exactly when that entry
    is of type End. Without one, it is a copy of the canonical context held
    in a cell of its own: whatever is assigned through the returned
    reference later, the canonical context stays as it was. *)
Theorem NewAppendContext_spec (w : World) :
  (forall last : Fragment,
      let entry := snd (UnmarshalLast (dec (blk w)) (Payload last)) in
      let r := NewAppendContext (Some last) w in
      exists c : appendContext,
        deref (snd r) (fst r) = Ret c
        /\ seq c = add64 (ceschema.SequenceNumber entry) 1
        /\ offset c = EndOffset last
        /\ (Archived c = true <-> ceschema.EntryType entry = ceschema.End)
        /\ blk (snd r) = blk w)
  /\ (let r := NewAppendContext None w in
      deref (snd r) (fst r) = Ret (actx (blk w))
      /\ blk (snd r) = blk w
      /\ fst r <> Canonical
      /\ forall c' : appendContext,
           deref (assign (snd r) (fst r) c') (fst r) = Ret c'
           /\ actx (blk (assign (snd r) (fst r) c')) = actx (blk w)).
Proof.
  split.
  - intros last. simpl. unfold NewAppendContext.
    destruct (UnmarshalLast (dec (blk w)) (Payload last)) as [n entry]. simpl.
    destruct (ceschema.EntryType entry) eqn:Hty; simpl;
      rewrite list_lookup_middle by done;
      eexists; (split; [reflexivity|]); simpl;
      repeat split; try done; try discriminate.
  - simpl. rewrite list_lookup_middle by done.
    split; [done|]. split; [done|]. split; [done|].
    intros c'. split; [|done].
    rewrite list_lookup_insert_eq; [done|].
    rewrite length_app. simpl. lia.
Qed.

(** ** PrepareAppend *)

Lemma wrap_entries_imap (s0 now i : Z) (entries : list Entry) :
  wrap_entries s0 now i entries
  = (imap (fun j e => wrapEntry e ceschema.CloudEvent (add64 s0 (i + Z.of_nat j)) now)
          entries,
     imap (fun j _ => add64 s0 (i + Z.of_nat j)) entries).
Proof.
  revert i. induction entries as [|e rest IH]; intros i; simpl; [done|].
  rewrite IH, Z.add_0_r. f_equal; f_equal; apply imap_ext; intros j x _; simpl;
    by replace (i + 1 + Z.of_nat j) with (i + Z.of_nat (S j)) by lia.
Qed.

Lemma wrap_entries_wrapped (c : appendContext) (now : Z) (entries : list Entry) :
  wrap_entries (seq c) now 0 entries
  = (wrapped c now entries, imap (fun j _ => add64 (seq c) (Z.of_nat j)) entries).
Proof. by rewrite wrap_entries_imap. Qed.

Lemma total_size_from (enc : EntryEncoder) (ents : list Entry) (acc : Z) :
  0 <= acc -> Forall (fun e => 0 <= enc_Size enc e) ents ->
  acc + sizes_sum enc ents < 2 ^ 63 ->
  fold_left (fun sz e => add64 sz (enc_Size enc e)) ents acc = acc + sizes_sum enc ents.
Proof.
  revert acc. induction ents as [|e rest IH]; intros acc Hacc Hpos Hfit; simpl in *.
  - lia.
  - apply Forall_cons in Hpos as [He Hrest].
    assert (0 <= sizes_sum enc rest) as Hsum.
    { clear -Hrest. induction Hrest; simpl; lia. }
    rewrite add64_small by (unfold in_int64; lia).
    rewrite IH; [lia|lia|done|lia].
Qed.

Lemma sizes_sum_nonneg (enc : EntryEncoder) (ents : list Entry) :
  Forall (fun e => 0 <= enc_Size enc e) ents -> 0 <= sizes_sum enc ents.
Proof. induction 1; simpl; lia. Qed.

Lemma marshal_all_length (enc : EntryEncoder) (ents : list Entry) (buf : bytes)
    (off : Z) :
  0 <= off -> Forall (fun e => 0 <= enc_Size enc e) ents ->
  off + sizes_sum enc ents <= len buf -> len buf < 2 ^ 63 ->
  exists buf', marshal_all enc ents buf off = Ret buf' /\ length buf' = length buf.
Proof.
  revert buf off. induction ents as [|e rest IH]; intros buf off Hoff Hpos Hfit Hbuf;
    simpl in *.
  - by exists buf.
  - apply Forall_cons in Hpos as [He Hrest].
    pose proof (sizes_sum_nonneg enc rest Hrest) as Hsum.
    rewrite add64_small by (unfold in_int64; lia).
    destruct (Z.ltb_spec off 0); [lia|].
    destruct (Z.ltb_spec (off + enc_Size enc e) off); [lia|].
    destruct (Z.ltb_spec (len buf) (off + enc_Size enc e)); [lia|]. simpl.
    set (buf1 := copy_into buf _ _).
    assert (length buf1 = length buf) as Hlen.
    { apply length_copy_into. unfold len in *. lia. }
    destruct (IH buf1 (off + enc_Size enc e)) as (buf' & Hm & Hl); try done.
    + lia.
    + unfold len in *. rewrite Hlen. lia.
    + unfold len in *. rewrite Hlen. lia.
    + exists buf'. split; [done|]. by rewrite Hl.
Qed.

Lemma newFragment_fit (so : Z) (ents : list Entry) (enc : EntryEncoder) :
  sizes_fit enc ents ->
  exists frag, newFragment so ents enc = Ret frag
               /\ StartOffset frag = so /\ Size frag = sizes_sum enc ents.
Proof.
  intros [Hpos Hfit]. unfold newFragment, total_size.
  pose proof (sizes_sum_nonneg enc ents Hpos) as Hsum.
  rewrite total_size_from by (try done; lia). rewrite Z.add_0_l.
  destruct (Z.ltb_spec (sizes_sum enc ents) 0); [lia|].
  destruct (marshal_all_length enc ents
              (replicate (Z.to_nat (sizes_sum enc ents)) x00) 0) as (buf & Hm & Hl);
    try done; unfold len; rewrite ?length_replicate; try lia.
  rewrite Hm. simpl. eexists. split; [done|]. split; [done|].
  unfold Size, len. simpl. rewrite Hl, length_replicate. lia.
Qed.

(** C6. For a detached context [c] and entries whose encoded sizes fit a
    buffer, [PrepareAppend] returns without error: the sequence numbers
    [c.seq], [c.seq+1], ... in order, one per entry; a fragment that starts
    at [c.offset] and whose size is the sum of the codec sizes of the
    wrapped entries; [full] as [(offset - dataOffset) >= capacity] on the
    advanced context. The detached context has advanced by the fragment
    size and by the number of entries, and the block is untouched. *)
Theorem PrepareAppend_spec (ctx : Context) (now : Z) (w : World) (l : nat)
    (c : appendContext) (entries : list Entry) :
  heap w !! l = Some c ->
  sizes_fit (enc (blk w)) (wrapped c now entries) ->
  exists (seqs : list Z) (frag : Fragment) (full : bool) (w' : World),
    PrepareAppend ctx now (Detached l) entries w = Ret ((seqs, frag, full, None), w')
    /\ length seqs = length entries
    /\ (forall i : nat, (i < length entries)%nat ->
          seqs !! i = Some (add64 (seq c) (Z.of_nat i)))
    /\ StartOffset frag = offset c
    /\ Size frag = sizes_sum (enc (blk w)) (wrapped c now entries)
    /\ deref w' (Detached l)
       = Ret (mkActx (add64 (seq c) (len entries))
                     (add64 (offset c) (Size frag)) (archived c))
    /\ full = (capacity (blk w)
               <=? sub64 (add64 (offset c) (Size frag)) (dataOffset (blk w)))
    /\ blk w' = blk w.
Proof.
  intros Hl Hfit. unfold PrepareAppend. simpl. rewrite Hl. simpl.
  rewrite wrap_entries_wrapped.
  destruct (newFragment_fit (offset c) (wrapped c now entries) (enc (blk w)) Hfit)
    as (frag & Hnew & Hso & Hsz).
  rewrite Hnew. simpl.
  eexists _, frag, _, _. split; [reflexivity|].
  split; [by rewrite length_imap|].
  split.
  { intros i Hi. rewrite list_lookup_imap.
    destruct (lookup_lt_is_Some_2 entries i Hi) as [e ->]. done. }
  split; [done|]. split; [done|].
  split; [|done]. simpl.
  rewrite list_lookup_insert_eq; [done|]. by eapply lookup_lt_Some.
Qed.

Lemma PrepareAppend_spec_witness :
  exists (seqs : list Z) (frag : Fragment) (full : bool) (w' : World),
    PrepareAppend sample.live 1000 (Detached 0)
      [sample.ev x01; sample.ev x02; sample.ev x03]
      (snd (NewAppendContext None sample.world0))
    = Ret ((seqs, frag, full, None), w')
    /\ seqs !! 2%nat = Some 2
    /\ StartOffset frag = 64 /\ Size frag = 99
    /\ deref w' (Detached 0) = Ret (mkActx 3 163 0)
    /\ blk w' = sample.fresh.
Proof.
  destruct (PrepareAppend_spec sample.live 1000
              (snd (NewAppendContext None sample.world0)) 0 (mkActx 0 64 0)
              [sample.ev x01; sample.ev x02; sample.ev x03])
    as (seqs & frag & full & w' & Hret & _ & Hseqs & Hso & Hsz & Hctx & _ & Hblk).
  - reflexivity.
  - split; [repeat constructor; vm_compute; discriminate|reflexivity].
  - exists seqs, frag, full, w'.
    split; [exact Hret|]. split; [apply (Hseqs 2%nat); simpl; lia|].
    split; [exact Hso|]. split; [exact Hsz|].
    split; [|exact Hblk]. rewrite Hctx, Hsz. reflexivity.
Defined.

(** ** Committing twice *)

Lemma fits_EndOffset (g : Fragment) :
  fits g -> EndOffset g = frag_so g + Size g /\ 0 <= Size g.
Proof.
  intros [H0 H1]. pose proof (len_nonneg (frag_data g)) as Hsz.
  unfold EndOffset, Size in *. split; [|done].
  apply add64_small. unfold in_int64. lia.
Qed.

(** The fragments of a contiguous run end one after the other. *)
Lemma contiguous_ends (kept : Fragment) (rest : list Fragment) :
  Forall fits (kept :: rest) -> contiguous_from kept rest = None ->
  Forall (fun g => EndOffset g <= end_of kept rest) (kept :: rest).
Proof.
  revert kept. induction rest as [|next rest IH]; intros kept Hfit Hc; simpl in *.
  - constructor; [lia|constructor].
  - destruct (Z.eqb_spec (EndOffset kept) (StartOffset next)) as [Heq|];
      [simpl in Hc|discriminate].
    apply Forall_cons in Hfit as [Hk Hfit].
    pose proof (IH next Hfit Hc) as Hends.
    constructor; [|done].
    apply Forall_cons in Hends as [Hn _]. apply Forall_cons in Hfit as [Hnf _].
    apply fits_EndOffset in Hnf as [Hne Hns].
    unfold StartOffset in *. lia.
Qed.

(** Their sizes add up, without wrap-around, to the length of the run. *)
Lemma contiguous_sizes (kept : Fragment) (rest : list Fragment) (base acc : Z) :
  Forall fits (kept :: rest) -> contiguous_from kept rest = None ->
  0 <= base -> 0 <= acc -> acc = StartOffset kept - base ->
  fold_left (fun sz frag => add64 sz (Size frag)) (kept :: rest) acc
  = end_of kept rest - base.
Proof.
  revert kept acc. induction rest as [|next rest IH];
    intros kept acc Hfit Hc Hbase Hacc Hstart;
    apply Forall_cons in Hfit as [Hk Hfit];
    pose proof Hk as [Hk0 Hk1];
    apply fits_EndOffset in Hk as [Hke Hks];
    unfold StartOffset in *.
  - simpl. rewrite add64_small by (unfold in_int64; lia). lia.
  - simpl in Hc.
    destruct (Z.eqb_spec (EndOffset kept) (StartOffset next)) as [Heq|];
      [simpl in Hc|discriminate].
    change (fold_left _ (kept :: next :: rest) acc)
      with (fold_left (fun sz frag => add64 sz (Size frag)) (next :: rest)
              (add64 acc (Size kept))).
    rewrite add64_small by (unfold in_int64; lia).
    change (end_of kept (next :: rest)) with (end_of next rest).
    apply IH; try done; unfold StartOffset in *; lia.
Qed.

Lemma copy_frags_length (base : Z) (frags : list Fragment) (data data' : bytes) :
  copy_frags base frags data = Ret data' -> length data' = length data.
Proof.
  revert data. induction frags as [|g frags IH]; intros data; simpl.
  - by intros [= ->].
  - destruct (Z.ltb_spec (sub64 (StartOffset g) base) 0) as [|Hlo]; [discriminate|].
    destruct (Z.ltb_spec (len data) (sub64 (StartOffset g) base)) as [|Hhi];
      [discriminate|].
    simpl. intros Hcp. apply IH in Hcp. rewrite Hcp.
    apply length_copy_into. unfold len in *. lia.
Qed.

Lemma coalesce_length (kept : Fragment) (rest : list Fragment) (base : Z)
    (data : bytes) :
  coalesce (kept :: rest) = Ret (base, data) ->
  base = StartOffset kept /\ len data = sum_sizes (kept :: rest).
Proof.
  unfold coalesce.
  destruct (Z.ltb_spec (sum_sizes (kept :: rest)) 0); [discriminate|].
  destruct (copy_frags _ _ _) as [d| |] eqn:Hcp; simpl; try discriminate.
  intros [= <- <-]. split; [done|].
  apply copy_frags_length in Hcp. unfold len. rewrite Hcp, length_replicate. lia.
Qed.

(** C2. Let the fragments of [L] lie in a file and let [CommitAppend] of
    [L] return without error, leaving the block as [b1]. Then a second
    [CommitAppend] of the same [L] returns [(false, nil)] and leaves [b1]
    as it is: canonical offset, canonical sequence number and index table
    are those reached by committing [L] once. *)
Theorem CommitAppend_idempotent (fuel fuel' : nat) (ctx ctx' : Context)
    (b : vsBlock) (L : list Fragment) (a : bool) (b1 : vsBlock) :
  Forall fits L ->
  CommitAppend fuel ctx b L = Ret ((a, None), b1) ->
  CommitAppend fuel' ctx' b1 L = Ret ((false, None), b1).
Proof.
  intros Hfit H. apply CommitAppend_exit in H.
  remember None as oe eqn:Hoe.
  destruct H as [ | Ht | | | kept base data cnt Ht Hne Hc Hco Hbi
                | | kept base data ix cnt arch tail n f' Ht Hne Hc Hco Hbi
                    Hsome Hsl Hw]; try discriminate.
  - apply commit_exit_CommitAppend. by apply exit_nothing_left.
  - (* nothing indexed although something was kept: impossible *)
    exfalso. rewrite trimFragments_spec in Ht.
    destruct (trim_spec_kept _ _ _ Ht Hne) as (pre & k & post & -> & -> & Hpre & Hk).
    apply Forall_app in Hfit as [_ Hfit].
    rewrite checkFragments_spec in Hc.
    apply coalesce_length in Hco as [-> Hlen].
    pose proof Hfit as Hfit'. apply Forall_cons in Hfit' as [Hkf _].
    pose proof Hkf as [Hk0 Hk1]. apply fits_EndOffset in Hkf as [Hke Hks].
    unfold sum_sizes in Hlen.
    rewrite (contiguous_sizes k post (StartOffset k) 0) in Hlen;
      try done; unfold StartOffset in *; try lia.
    pose proof (contiguous_ends k post Hfit Hc) as Hends.
    apply Forall_cons in Hends as [Hend _].
    destruct (buildIndexes_loop_progress fuel b (frag_so k) data (scan_start b)
                [] cnt false) as [?|?]; try done.
    left. simpl. lia.
  - rewrite trimFragments_spec in Ht.
    destruct (trim_spec_kept _ _ _ Ht Hne) as (pre & k & post & -> & -> & Hpre & Hk).
    pose proof Hfit as HfitL. apply Forall_app in Hfit as [_ Hfit].
    rewrite checkFragments_spec in Hc.
    apply coalesce_length in Hco as [-> Hlen].
    pose proof Hfit as Hfit'. apply Forall_cons in Hfit' as [Hkf _].
    pose proof Hkf as [Hk0 Hk1]. apply fits_EndOffset in Hkf as [Hke Hks].
    unfold sum_sizes in Hlen.
    rewrite (contiguous_sizes k post (StartOffset k) 0) in Hlen;
      try done; unfold StartOffset in *; try lia.
    pose proof (contiguous_ends k post Hfit Hc) as Hends.
    pose proof Hends as Hends'. apply Forall_cons in Hends' as [Hend _].
    apply WriteAt_success in Hw as [-> _].
    assert (sub64 (offset (actx b)) (frag_so k) = offset (actx b) - frag_so k) as Hsub.
    { apply sub64_small. unfold in_int64. lia. }
    rewrite Hsub in Hsl. apply slice_from_Ret in Hsl as [Hrange ->].
    assert (len (drop (Z.to_nat (offset (actx b) - frag_so k)) data)
            = end_of k post - offset (actx b)) as Htail.
    { unfold len in *. rewrite length_drop. lia. }
    assert (Forall (fun g => EndOffset g <= end_of k post) pre) as Hpre'.
    { eapply Forall_impl; [exact Hpre|]. simpl. intros g Hg. lia. }
    assert (offset (actx (advanced b f' ix cnt
                            (len (drop (Z.to_nat (offset (actx b) - frag_so k)) data))
                            arch)) = end_of k post) as Hoff.
    { simpl. rewrite Htail. rewrite add64_small; [lia|].
      unfold in_int64.
      assert (end_of k post < 2 ^ 63); [|lia].
      clear -Hfit. revert k Hfit. induction post as [|q post IH]; intros k Hfit;
        apply Forall_cons in Hfit as [Hk Hfit]; simpl.
      - pose proof Hk as [? ?]. apply fits_EndOffset in Hk as [-> _]. lia.
      - by apply IH. }
    apply commit_exit_CommitAppend, exit_nothing_left.
    rewrite trimFragments_spec, Hoff.
    rewrite <- (app_nil_r (pre ++ k :: post)).
    apply trim_spec_discard. apply Forall_app. by split.
Qed.

Lemma CommitAppend_idempotent_witness :
  CommitAppend 10 sample.live sample.fresh [sample.f0; sample.f1]
  = Ret ((false, None), sample.after01)
  /\ CommitAppend 10 sample.live sample.after01 [sample.f0; sample.f1]
     = Ret ((false, None), sample.after01).
Proof.
  split; [reflexivity|].
  apply (CommitAppend_idempotent 10 10 sample.live sample.live sample.fresh
           [sample.f0; sample.f1] false sample.after01).
  - repeat constructor; vm_compute; congruence.
  - reflexivity.
Defined.

(** * Further properties of the code *)

(** ** More arithmetic on machine integers *)

Lemma wrap64_add_l (a b : Z) : wrap64 (wrap64 a + b) = wrap64 (a + b).
Proof.
  unfold wrap64. f_equal.
  replace ((a + 2 ^ 63) mod 2 ^ 64 - 2 ^ 63 + b + 2 ^ 63)
    with ((a + 2 ^ 63) mod 2 ^ 64 + b) by lia.
  rewrite Z.add_mod_idemp_l by done. f_equal. lia.
Qed.

Lemma wrap64_sub_l (a b : Z) : wrap64 (wrap64 a - b) = wrap64 (a - b).
Proof. apply (wrap64_add_l a (- b)). Qed.

Lemma add64_assoc (a b c : Z) : add64 (add64 a b) c = add64 a (b + c).
Proof. unfold add64. rewrite wrap64_add_l. f_equal. lia. Qed.

Lemma wrap64_range (z : Z) : in_int64 (wrap64 z).
Proof.
  unfold in_int64, wrap64.
  pose proof (Z.mod_pos_bound (z + 2 ^ 63) (2 ^ 64)) as H.
  change (2 ^ 64) with (2 ^ 63 + 2 ^ 63) in *. lia.
Qed.

Lemma add64_1_ne (e : Z) : add64 e 1 <> e.
Proof.
  unfold add64, wrap64. intros H.
  pose proof (Z.div_mod (e + 1 + 2 ^ 63) (2 ^ 64)) as Hdm.
  change (2 ^ 64) with 18446744073709551616 in *.
  change (2 ^ 63) with 9223372036854775808 in *. lia.
Qed.

(** ** What a commit leaves in place *)

Lemma trimFragments_discard (ctx : Context) (b : vsBlock)
    (pre rest : list Fragment) :
  Forall (fun g => EndOffset g <= offset (actx b)) pre ->
  trimFragments ctx b (pre ++ rest) = trimFragments ctx b rest.
Proof. intros Hpre. rewrite !trimFragments_spec. by apply trim_spec_discard. Qed.

(** X1. Fragments that end at or before the canonical offset and come
    first in the list are of no consequence: committing [pre ++ rest] is
    committing [rest], result and block alike. *)
Theorem CommitAppend_skips_durable_prefix (fuel : nat) (ctx : Context)
    (b : vsBlock) (pre rest : list Fragment) :
  Forall (fun g => EndOffset g <= offset (actx b)) pre ->
  CommitAppend fuel ctx b (pre ++ rest) = CommitAppend fuel ctx b rest.
Proof.
  intros Hpre. unfold CommitAppend. by rewrite trimFragments_discard.
Qed.

Lemma CommitAppend_skips_durable_prefix_witness :
  CommitAppend 10 sample.live sample.after0 ([sample.f0] ++ [sample.f1])
  = CommitAppend 10 sample.live sample.after0 [sample.f1].
Proof.
  apply (CommitAppend_skips_durable_prefix 10 sample.live sample.after0
           [sample.f0] [sample.f1]).
  repeat constructor. vm_compute. discriminate.
Defined.



(** ** The scan on a buffer of whole entries *)

Lemma slice_from_in_range {A} (s : list A) (k : Z) :
  0 <= k <= len s -> slice_from s k = Ret (drop (Z.to_nat k) s).
Proof.
  intros Hk. unfold slice_from.
  destruct (Z.ltb_spec k 0); [lia|]. destruct (Z.ltb_spec (len s) k); [lia|]. done.
Qed.

Lemma len_drop {A} (s : list A) (k : Z) :
  0 <= k <= len s -> len (drop (Z.to_nat k) s) = len s - k.
Proof. intros Hk. unfold len in *. rewrite length_drop. lia. Qed.

(** The loop goes through a run of events one turn per entry. *)
Lemma scan_after_events (b : vsBlock) (base : Z) (data : bytes)
    (ents : list (Z * Entry)) (rest : bytes) (off expected : Z) (ix : list Index) :
  len data < 2 ^ 63 -> 0 <= off <= len data ->
  in_int64 expected -> expected + len ents < 2 ^ 63 ->
  events_run (dec b) expected (drop (Z.to_nat off) data) ents rest ->
  exists off',
    scan_after (length ents) b base data (mkScan off expected ix)
    = Some (mkScan off' (expected + len ents) (ix ++ index_run base off ents))
    /\ off <= off' <= len data /\ rest = drop (Z.to_nat off') data.
Proof.
  intros Hsz. revert off expected ix.
  induction ents as [|[n e] ents IH]; intros off expected ix Hoff Hexp Hm Hrun.
  - simpl in *. exists off. rewrite Z.add_0_r, app_nil_r. repeat split; try done; lia.
  - destruct Hrun as (Hdec & Hn & Hseq & Hty & Hrun).
    rewrite len_drop in Hn by done.
    assert (len ((n, e) :: ents) = 1 + len ents) as Hlen by (unfold len; simpl; lia).
    rewrite Hlen in *. pose proof (len_nonneg ents) as Hents.
    destruct (IH (off + n) (expected + 1)
                (ix ++ [NewIndex (add64 base off) (wrap32 n) e]))
      as (off' & Hafter & Hoff' & Hrest).
    + lia.
    + unfold in_int64 in *. lia.
    + lia.
    + rewrite Z2Nat.inj_add by lia. by rewrite <- drop_drop.
    + exists off'. split; [|split; [lia|done]].
      simpl. unfold buildIndexes_iter. simpl.
      destruct (Z.ltb_spec off (len data)); [simpl|lia].
      rewrite slice_from_in_range by lia. rewrite Hdec, Hseq, Z.eqb_refl, Hty.
      rewrite !add64_small by (unfold in_int64 in *; lia).
      rewrite Hafter. f_equal. f_equal; [lia|]. by rewrite <- app_assoc.
Qed.

(** X3. A buffer that consists of whole entries, none of them an End
    entry, numbered from the canonical sequence number upwards: the scan
    returns one index record per entry, in order, each at the file offset
    of its entry and with its byte count, counts them all, and does not
    report the block as archived. *)
Theorem buildIndexes_events (fuel : nat) (ctx : Context) (b : vsBlock) (base : Z)
    (data : bytes) (ents : list (Z * Entry)) :
  len data < 2 ^ 63 ->
  0 <= seq (actx b) -> seq (actx b) + len ents < 2 ^ 63 ->
  events_run (dec b) (seq (actx b)) data ents [] ->
  buildIndexes (length ents + S fuel) ctx b base data
  = Ret (index_run base 0 ents, len ents, false, None).
Proof.
  intros Hsz Hs0 Hs1 Hrun.
  pose proof (len_nonneg data) as Hd. pose proof (len_nonneg ents) as He.
  destruct (scan_after_events b base data ents [] 0 (seq (actx b)) [])
    as (off' & Hafter & Hoff' & Hrest); try done; try lia.
  { unfold in_int64. lia. }
  unfold buildIndexes. fold (scan_start b). unfold scan_start.
  rewrite (buildIndexes_loop_after _ _ _ _ _ _ _ Hafter). simpl.
  unfold buildIndexes_iter. simpl.
  assert (off' = len data) as ->.
  { symmetry in Hrest. apply (f_equal len) in Hrest.
    rewrite len_drop in Hrest by done. change (len []) with 0 in Hrest. lia. }
  rewrite Z.ltb_irrefl. simpl. do 4 f_equal.
  replace (seq (actx b) + len ents) with (len ents + seq (actx b)) by lia.
  unfold sub64. rewrite Z.add_simpl_r. apply wrap64_small. unfold in_int64. lia.
Qed.

Lemma buildIndexes_events_witness :
  buildIndexes (2 + 1) sample.live sample.fresh 64 (Payload sample.f01)
  = Ret ([mkIndex 64 31 0 1000; mkIndex 95 31 1 1000], 2, false, None).
Proof.
  apply (buildIndexes_events 0 sample.live sample.fresh 64 (Payload sample.f01)
           [(31, ceschema.mkEntry ceschema.CloudEvent 0 1000 []);
            (31, ceschema.mkEntry ceschema.CloudEvent 1 1000 [])]).
  - reflexivity.
  - discriminate.
  - reflexivity.
  - repeat split; discriminate.
Defined.

(** X4. The same buffer with an End entry after the events, carrying the
    next sequence number and reaching the end of the buffer: the scan
    returns the index records of the events and none for the End entry,
    counts the End entry along with the events, and reports the block as
    archived. *)
Theorem buildIndexes_events_then_End (fuel : nat) (ctx : Context) (b : vsBlock)
    (base : Z) (data : bytes) (ents : list (Z * Entry)) (rest : bytes)
    (n : Z) (e : Entry) :
  len data < 2 ^ 63 ->
  0 <= seq (actx b) -> seq (actx b) + len ents + 1 < 2 ^ 63 ->
  events_run (dec b) (seq (actx b)) data ents rest ->
  Unmarshal (dec b) rest = (n, e) -> n = len rest -> 0 < n ->
  ceschema.EntryType e = ceschema.End ->
  ceschema.SequenceNumber e = seq (actx b) + len ents ->
  buildIndexes (length ents + S fuel) ctx b base data
  = Ret (index_run base 0 ents, len ents + 1, true, None).
Proof.
  intros Hsz Hs0 Hs1 Hrun Hdec Hn Hpos Hty Hseq.
  pose proof (len_nonneg data) as Hd. pose proof (len_nonneg ents) as He.
  destruct (scan_after_events b base data ents rest 0 (seq (actx b)) [])
    as (off' & Hafter & Hoff' & Hrest); try done; try lia.
  { unfold in_int64. lia. }
  unfold buildIndexes. fold (scan_start b). unfold scan_start.
  rewrite (buildIndexes_loop_after _ _ _ _ _ _ _ Hafter). simpl.
  unfold buildIndexes_iter. simpl.
  assert (len rest = len data - off') as Hlen.
  { rewrite Hrest. by apply len_drop. }
  destruct (Z.ltb_spec off' (len data)); [simpl|lia].
  rewrite slice_from_in_range by lia. rewrite <- Hrest, Hdec, Hseq, Z.eqb_refl, Hty.
  simpl. rewrite !add64_small by (unfold in_int64; lia).
  destruct (Z.eqb_spec (off' + n) (len data)); [simpl|lia].
  do 4 f_equal. unfold sub64.
  replace (seq (actx b) + len ents + 1 - seq (actx b)) with (len ents + 1) by lia.
  apply wrap64_small. unfold in_int64. lia.
Qed.

Lemma buildIndexes_events_then_End_witness :
  buildIndexes (2 + 1) sample.live sample.fresh 64 sample.sealed_data
  = Ret ([mkIndex 64 31 0 1000; mkIndex 95 31 1 1000], 2 + 1, true, None).
Proof.
  apply (buildIndexes_events_then_End 0 sample.live sample.fresh 64
           sample.sealed_data
           [(31, ceschema.mkEntry ceschema.CloudEvent 0 1000 []);
            (31, ceschema.mkEntry ceschema.CloudEvent 1 1000 [])]
           (Payload sample.fend2) 31 (ceschema.mkEntry ceschema.End 2 1000 []));
    try reflexivity; try discriminate.
  repeat split; discriminate.
Defined.

(** ** The entry count of the scan *)

Lemma buildIndexes_loop_count (fuel : nat) (b : vsBlock) (base : Z) (data : bytes)
    (s : scan) (ix : list Index) (cnt : Z) (arch : bool) :
  buildIndexes_loop fuel b base data s = Ret (ix, cnt, arch, None) ->
  exists extra,
    ix = sc_indexes s ++ extra
    /\ cnt = wrap64 (sc_expected s - seq (actx b) + len extra + b2z arch).
Proof.
  revert s. induction fuel as [|fuel IH]; intros s; simpl; [discriminate|].
  destruct (buildIndexes_iter b base data s) as [s'|r|] eqn:Hit; try discriminate.
  - intros H. apply IH in H as (extra & -> & ->). revert Hit.
    unfold buildIndexes_iter.
    destruct (negb (sc_off s <? len data)); [discriminate|].
    destruct (slice_from data (sc_off s)) as [rest| |]; try discriminate.
    destruct (Unmarshal (dec b) rest) as [n entry].
    destruct (ceschema.SequenceNumber entry =? sc_expected s).
    + destruct (ceschema.is_End (ceschema.EntryType entry)).
      * destruct (negb (add64 (sc_off s) n =? len data)); discriminate.
      * intros [= <-]. simpl. eexists. split; [by rewrite <- app_assoc|].
        unfold add64. rewrite <- !Z.add_sub_swap, !Z.add_sub_swap.
        replace (wrap64 (sc_expected s + 1) - seq (actx b) + len extra + b2z arch)
          with (wrap64 (sc_expected s + 1) + (- seq (actx b) + len extra + b2z arch))
          by lia.
        rewrite wrap64_add_l. f_equal. rewrite len_app. change (len [_]) with 1. lia.
    + destruct ((ceschema.SequenceNumber entry <? sc_expected s)
                && (len (sc_indexes s) =? 0)); [|discriminate].
      intros [= <-]. by exists extra.
  - intros [= ->]. revert Hit. unfold buildIndexes_iter.
    destruct (negb (sc_off s <? len data)).
    + intros [= <- <- <-]. exists []. rewrite app_nil_r. split; [done|].
      unfold sub64, b2z. f_equal. change (len []) with 0. lia.
    + destruct (slice_from data (sc_off s)) as [rest| |]; try discriminate.
      destruct (Unmarshal (dec b) rest) as [n entry].
      destruct (ceschema.SequenceNumber entry =? sc_expected s).
      * destruct (ceschema.is_End (ceschema.EntryType entry)); [|discriminate].
        destruct (negb (add64 (sc_off s) n =? len data)); [discriminate|].
        intros [= <- <- <-]. exists []. rewrite app_nil_r. split; [done|].
        unfold sub64, add64, b2z. rewrite wrap64_sub_l. f_equal.
        change (len []) with 0. lia.
      * destruct ((ceschema.SequenceNumber entry <? sc_expected s)
                  && (len (sc_indexes s) =? 0)); discriminate.
Qed.

(** X5. When [CommitAppend] returns without error, the canonical sequence
    number has advanced by the number of index records appended to the
    table, and by one more when the call reports the block as archived:
    the End entry is counted although it is not indexed. *)
Theorem CommitAppend_seq_advance (fuel : nat) (ctx : Context) (b : vsBlock)
    (frags : list Fragment) (a : bool) (b' : vsBlock) :
  in_int64 (seq (actx b)) ->
  CommitAppend fuel ctx b frags = Ret ((a, None), b') ->
  exists ix,
    indexes b' = indexes b ++ ix
    /\ seq (actx b') = add64 (seq (actx b)) (len ix + b2z a).
Proof.
  intros Hseq H. apply CommitAppend_exit in H.
  assert (exists ix, indexes b = indexes b ++ ix
                     /\ seq (actx b) = add64 (seq (actx b)) (len ix + b2z false))
    as Hsame.
  { exists []. rewrite app_nil_r. split; [done|].
    change (len [] + b2z false) with 0.
    symmetry. unfold add64. rewrite Z.add_0_r. by apply wrap64_small. }
  remember None as oe eqn:Hoe.
  destruct H as [ | | | | | 
                | kept base data ix cnt arch tail n f' Ht Hne Hc Hco Hbi Hsome Hsl Hw];
    try discriminate; try done.
  exists ix. split; [done|]. simpl.
  apply buildIndexes_loop_count in Hbi as (extra & Hix & ->). simpl in Hix. subst extra.
  unfold add64. rewrite Z.sub_diag, Z.add_0_l.
  rewrite (Z.add_comm (seq (actx b))), wrap64_add_l. f_equal. lia.
Qed.

Lemma CommitAppend_seq_advance_witness :
  exists ix,
    indexes sample.after01 = indexes sample.fresh ++ ix
    /\ seq (actx sample.after01) = add64 (seq (actx sample.fresh)) (len ix + b2z false).
Proof.
  apply (CommitAppend_seq_advance 10 sample.live sample.fresh
           [sample.f0; sample.f1] false sample.after01).
  - unfold in_int64. simpl. lia.
  - reflexivity.
Defined.

(** ** When the scan comes to an end *)

(** A turn taken with an index in hand, at an entry that fails the
    sequence check, is the last one. *)
Lemma buildIndexes_iter_started (b : vsBlock) (base : Z) (data : bytes) (s : scan) :
  sc_indexes s <> [] ->
  match buildIndexes_iter b base data s with
  | Again s' =>
      sc_indexes s' <> [] /\ 0 <= sc_off s < len data
      /\ ceschema.SequenceNumber (snd (Unmarshal (dec b) (drop (Z.to_nat (sc_off s)) data)))
         = sc_expected s
      /\ sc_expected s' = add64 (sc_expected s) 1
      /\ sc_off s' = add64 (sc_off s)
                       (fst (Unmarshal (dec b) (drop (Z.to_nat (sc_off s)) data)))
  | _ => True
  end.
Proof.
  intros Hix. unfold buildIndexes_iter.
  destruct (Z.ltb_spec (sc_off s) (len data)) as [Hlt|]; simpl; [|done].
  destruct (slice_from data (sc_off s)) as [rest| |] eqn:Hsl; try done.
  apply slice_from_Ret in Hsl as [Hrange ->].
  destruct (Unmarshal (dec b) _) as [n entry]. simpl.
  destruct (Z.eqb_spec (ceschema.SequenceNumber entry) (sc_expected s)) as [Heq|].
  - destruct (ceschema.is_End (ceschema.EntryType entry)).
    + by destruct (negb (add64 (sc_off s) n =? len data)).
    + simpl. repeat split; try done; try lia. by destruct (sc_indexes s).
  - assert ((len (sc_indexes s) =? 0) = false) as ->.
    { apply Z.eqb_neq. by rewrite len_nil_iff. }
    by rewrite andb_false_r.
Qed.

Lemma buildIndexes_loop_started (fuel : nat) (b : vsBlock) (base : Z)
    (data : bytes) (s : scan) :
  tail_counts (dec b) data -> len data < 2 ^ 63 ->
  sc_indexes s <> [] ->
  (sc_off s < 0 /\ (1 <= fuel)%nat)
  \/ (0 <= sc_off s /\ (2 * Z.to_nat (len data - sc_off s) + 2 <= fuel)%nat) ->
  buildIndexes_loop fuel b base data s <> NoFuel.
Proof.
  intros Hcount Hsz. revert s.
  induction fuel as [|fuel IH]; intros s Hix Hfuel; [lia|]. simpl.
  pose proof (buildIndexes_iter_started b base data s Hix) as Hturn.
  destruct (buildIndexes_iter b base data s) as [s'|r|] eqn:Hit; try done.
  destruct Hturn as (Hix' & Hoff & Hseq & Hexp & Hoff').
  destruct Hfuel as [[Hneg _]|[_ Hfuel]]; [lia|].
  set (ne := Unmarshal (dec b) (drop (Z.to_nat (sc_off s)) data)) in *.
  pose proof (Hcount (Z.to_nat (sc_off s))) as Hn. fold ne in Hn.
  destruct (Z.eq_dec (fst ne) 0) as [Hzero|Hpos].
  - (* no byte consumed: the same entry is met again and rejected *)
    rewrite Hzero in Hoff'. unfold add64 in Hoff'. rewrite Z.add_0_r in Hoff'.
    rewrite wrap64_small in Hoff' by (unfold in_int64; lia).
    destruct fuel as [|fuel]; [lia|]. simpl.
    pose proof (buildIndexes_iter_started b base data s' Hix') as Hturn'.
    destruct (buildIndexes_iter b base data s') as [s''|r|]; try done.
    destruct Hturn' as (_ & _ & Hseq' & _). exfalso.
    rewrite Hoff' in Hseq'. fold ne in Hseq'. rewrite Hseq, Hexp in Hseq'.
    symmetry in Hseq'. by apply add64_1_ne in Hseq'.
  - destruct (Z.lt_ge_cases (sc_off s + fst ne) (2 ^ 63)) as [Hfit|Hwrap].
    + rewrite add64_small in Hoff' by (unfold in_int64; lia).
      apply IH; [done|]. right. split; [lia|]. rewrite Hoff'. lia.
    + assert (sc_off s' < 0) as Hneg.
      { rewrite Hoff'. unfold add64, wrap64.
        rewrite <- (Z.mod_add _ (-1)) by done.
        rewrite Z.mod_small; change (2 ^ 64) with (2 ^ 63 + 2 ^ 63);
          change (2 ^ 63) with 9223372036854775808 in *; lia. }
      apply IH; [done|]. left. split; [done|lia].
Qed.

Lemma buildIndexes_halts (ctx : Context) (b : vsBlock) (base : Z) (data : bytes)
    (fuel : nat) :
  tail_counts (dec b) data -> len data < 2 ^ 63 ->
  ~ overlapping b data ->
  (2 * length data + 3 <= fuel)%nat ->
  buildIndexes fuel ctx b base data <> NoFuel.
Proof.
  intros Hcount Hsz Hno Hfuel. unfold buildIndexes.
  destruct fuel as [|fuel]; [lia|]. simpl.
  destruct (buildIndexes_iter b base data (mkScan 0 (seq (actx b)) [])) as [s'|r|]
    eqn:Hit; try done.
  revert Hit. unfold buildIndexes_iter. simpl.
  destruct (Z.ltb_spec 0 (len data)) as [Hlt|]; simpl; [|discriminate].
  rewrite slice_from_in_range by lia. change (drop (Z.to_nat 0) data) with data.
  pose proof (Hcount 0%nat) as Hn. change (drop 0 data) with data in Hn.
  unfold overlapping in Hno.
  destruct (Unmarshal (dec b) data) as [n entry] eqn:Hdec. simpl in Hn.
  destruct (Z.eqb_spec (ceschema.SequenceNumber entry) (seq (actx b))) as [Heq|Hne].
  - destruct (ceschema.is_End (ceschema.EntryType entry)).
    + destruct (negb (add64 0 n =? len data)); discriminate.
    + intros [= <-].
      assert (add64 0 n = n) as Hoff.
      { apply add64_small. unfold in_int64. lia. }
      destruct (Z.eq_dec n 0) as [->|Hpos].
      * destruct fuel as [|fuel]; [lia|]. simpl.
        pose proof (buildIndexes_iter_started b base data
                      (mkScan (add64 0 0) (add64 (seq (actx b)) 1)
                         [NewIndex (add64 base 0) (wrap32 0) entry])) as Hturn.
        destruct (buildIndexes_iter b base data _) as [s''|r|]; try done.
        destruct Hturn as (_ & _ & Hseq' & _); [done|]. exfalso.
        cbn [sc_off sc_expected] in Hseq'. rewrite Hoff in Hseq'.
        change (drop (Z.to_nat 0) data) with data in Hseq'.
        rewrite Hdec in Hseq'. cbn [snd] in Hseq'.
        rewrite Heq in Hseq'. symmetry in Hseq'. by apply add64_1_ne in Hseq'.
      * apply buildIndexes_loop_started; try done.
        right. simpl. rewrite Hoff. split; [lia|].
        unfold len in *. lia.
  - destruct (Z.ltb_spec (ceschema.SequenceNumber entry) (seq (actx b)));
      [|discriminate].
    exfalso. apply Hno. by split.
Qed.

(** X6. For a decoder that reports byte counts that are non-negative
    [int]s, the scan of a buffer fails to come to an end in exactly one
    case: the buffer is not empty and its first entry carries a sequence
    number below the canonical one. In that case no number of turns
    suffices; in every other case twice the length of the buffer plus three
    turns do, and the scan returns or panics. *)
Theorem buildIndexes_halts_unless_overlap (ctx : Context) (b : vsBlock) (base : Z)
    (data : bytes) :
  counts_ok (dec b) -> len data < 2 ^ 63 ->
  (overlapping b data -> forall fuel, buildIndexes fuel ctx b base data = NoFuel)
  /\ (~ overlapping b data ->
      forall fuel, (2 * length data + 3 <= fuel)%nat ->
                   buildIndexes fuel ctx b base data <> NoFuel).
Proof.
  intros Hcount Hsz. split.
  - intros [Hlen Hseq] fuel.
    destruct (Unmarshal (dec b) data) as [n entry] eqn:Hdec.
    by eapply buildIndexes_overlap_spins.
  - intros Hno fuel Hfuel. apply buildIndexes_halts; try done.
    intros k. apply Hcount.
Qed.

(** The codec instance reports byte counts that are non-negative [int]s. *)
Lemma wire_get_le_bound (bs : bytes) :
  0 <= wire.get_le bs < 256 ^ len bs.
Proof.
  induction bs as [|x bs IH].
  - simpl. change (256 ^ len []) with 1. lia.
  - replace (len (x :: bs)) with (1 + len bs) by (unfold len; simpl; lia).
    rewrite Z.pow_add_r by (pose proof (len_nonneg bs); lia).
    change (256 ^ 1) with 256. simpl.
    pose proof (Byte.to_N_bounded x) as Hx.
    assert (0 <= wire.Z_of_byte x <= 255) as Hb.
    { unfold wire.Z_of_byte. lia. }
    nia.
Qed.

Lemma wire_counts_ok : counts_ok wire.decoder.
Proof.
  intros bs. simpl. unfold wire.Unmarshal.
  destruct ((wire.get_le (take 4 bs) <? wire.overhead)
            || (len bs <? wire.get_le (take 4 bs))) eqn:Hbad; simpl.
  - lia.
  - pose proof (wire_get_le_bound (take 4 bs)) as Hb.
    assert (len (take 4 bs) <= 4) as Hlen.
    { unfold len. rewrite length_take. lia. }
    assert (256 ^ len (take 4 bs) <= 256 ^ 4) as Hpow.
    { apply Z.pow_le_mono_r; [lia|done]. }
    change (256 ^ 4) with 4294967296 in Hpow.
    change (2 ^ 63) with 9223372036854775808. lia.
Qed.

Lemma buildIndexes_halts_unless_overlap_witness :
  (forall fuel, buildIndexes fuel sample.live sample.after0 64 (Payload sample.f01)
                = NoFuel)
  /\ (forall fuel, (2 * length (Payload sample.f02) + 3 <= fuel)%nat ->
        buildIndexes fuel sample.live sample.fresh 64 (Payload sample.f02) <> NoFuel).
Proof.
  split.
  - apply (buildIndexes_halts_unless_overlap sample.live sample.after0 64
             (Payload sample.f01)).
    + exact wire_counts_ok.
    + reflexivity.
    + split; reflexivity.
  - apply (buildIndexes_halts_unless_overlap sample.live sample.fresh 64
             (Payload sample.f02)).
    + exact wire_counts_ok.
    + reflexivity.
    + intros [_ Hlt]. vm_compute in Hlt. discriminate.
Defined.

(** ** The coalesced buffer and the file write *)

Lemma copy_into_app {A} (done zeros src : list A) :
  (length src <= length zeros)%nat ->
  copy_into (done ++ zeros) (length done) src
  = done ++ src ++ drop (length src) zeros.
Proof.
  intros Hlen. unfold copy_into.
  rewrite length_app, Nat.add_comm, Nat.add_sub, Nat.min_r by done.
  rewrite take_app_length, take_ge by done.
  rewrite Nat.add_comm. replace (length src + length done)%nat
    with (length done + length src)%nat by lia.
  by rewrite drop_app_add.
Qed.

Lemma contiguous_concat_len (kept : Fragment) (rest : list Fragment) :
  Forall fits (kept :: rest) -> contiguous_from kept rest = None ->
  end_of kept rest = StartOffset kept + len (concat (map Payload (kept :: rest))).
Proof.
  revert kept. induction rest as [|next rest IH]; intros kept Hfit Hc;
    apply Forall_cons in Hfit as [Hk Hfit];
    apply fits_EndOffset in Hk as [Hke Hks];
    change (concat (map Payload (kept :: ?l)))
      with (Payload kept ++ concat (map Payload l));
    rewrite len_app; unfold StartOffset, Size in *;
    change (Payload kept) with (frag_data kept).
  - simpl. change (len []) with 0. lia.
  - simpl in Hc.
    destruct (Z.eqb_spec (EndOffset kept) (StartOffset next)) as [Heq|];
      [simpl in Hc|discriminate].
    change (end_of kept (next :: rest)) with (end_of next rest).
    rewrite (IH next Hfit Hc). unfold StartOffset in *. lia.
Qed.

Lemma copy_frags_step (base : Z) (g : Fragment) (rest : list Fragment)
    (done zeros : bytes) :
  0 <= base -> fits g -> len done = StartOffset g - base ->
  (length (Payload g) <= length zeros)%nat ->
  copy_frags base (g :: rest) (done ++ zeros)
  = copy_frags base rest ((done ++ Payload g) ++ drop (length (Payload g)) zeros).
Proof.
  intros Hbase [Hg0 Hg1] Hdone Hlen. simpl.
  pose proof (len_nonneg done) as Hd. pose proof (len_nonneg zeros) as Hz.
  pose proof (len_nonneg (frag_data g)) as Hp.
  unfold StartOffset, Size in *.
  rewrite sub64_small by (unfold in_int64; lia). rewrite <- Hdone.
  destruct (Z.ltb_spec (len done) 0); [lia|].
  destruct (Z.ltb_spec (len (done ++ zeros)) (len done));
    [rewrite len_app in *; lia|]. simpl.
  replace (Z.to_nat (len done)) with (length done) by (unfold len; lia).
  by rewrite copy_into_app, app_assoc.
Qed.

Lemma copy_frags_concat (base : Z) (kept : Fragment) (rest : list Fragment)
    (done zeros : bytes) :
  Forall fits (kept :: rest) -> contiguous_from kept rest = None ->
  0 <= base -> len done = StartOffset kept - base ->
  length zeros = length (concat (map Payload (kept :: rest))) ->
  copy_frags base (kept :: rest) (done ++ zeros)
  = Ret (done ++ concat (map Payload (kept :: rest))).
Proof.
  revert kept done zeros.
  induction rest as [|next rest IH]; intros kept done zeros Hfit Hc Hbase Hdone Hz;
    apply Forall_cons in Hfit as [Hk Hfit];
    change (concat (map Payload (kept :: ?l)))
      with (Payload kept ++ concat (map Payload l)) in *;
    rewrite length_app in Hz.
  - rewrite copy_frags_step; [|done|done|done|lia].
    simpl in *. rewrite drop_ge by lia. by rewrite !app_nil_r.
  - rewrite copy_frags_step; [|done|done|done|lia].
    simpl in Hc.
    destruct (Z.eqb_spec (EndOffset kept) (StartOffset next)) as [Heq|];
      [simpl in Hc|discriminate].
    apply fits_EndOffset in Hk as [Hke Hks].
    rewrite IH; try done.
    + by rewrite <- app_assoc.
    + rewrite len_app. unfold StartOffset, Size, Payload in *. lia.
    + rewrite length_drop. lia.
Qed.

Lemma coalesce_contiguous (kept : Fragment) (rest : list Fragment) :
  Forall fits (kept :: rest) -> contiguous_from kept rest = None ->
  coalesce (kept :: rest)
  = Ret (StartOffset kept, concat (map Payload (kept :: rest))).
Proof.
  intros Hfit Hc.
  pose proof Hfit as Hfit0. apply Forall_cons in Hfit0 as [Hk _].
  destruct Hk as [Hk0 Hk1].
  pose proof (contiguous_concat_len kept rest Hfit Hc) as Hend.
  assert (sum_sizes (kept :: rest) = len (concat (map Payload (kept :: rest)))) as Hsum.
  { unfold sum_sizes. rewrite (contiguous_sizes kept rest (StartOffset kept) 0);
      try done; unfold StartOffset in *; lia. }
  unfold coalesce. rewrite Hsum.
  destruct (Z.ltb_spec (len (concat (map Payload (kept :: rest)))) 0) as [Hneg|_].
  { pose proof (len_nonneg (concat (map Payload (kept :: rest)))). lia. }
  rewrite <- (app_nil_l (replicate _ _)).
  rewrite (copy_frags_concat (StartOffset kept) kept rest []); try done.
  - change (len []) with 0. lia.
  - rewrite length_replicate. unfold len. lia.
Qed.

(** X7. Fragments that lie in a file and pass the contiguity check coalesce
    into the concatenation of their payloads, based at the start offset of
    the first: no byte of a payload is lost, moved or overwritten. *)
Theorem coalesce_concat (ctx : Context) (b : vsBlock) (frags : list Fragment) :
  Forall fits frags -> frags <> [] ->
  checkFragments ctx b frags = None ->
  exists first, head frags = Some first
    /\ coalesce frags = Ret (StartOffset first, concat (map Payload frags)).
Proof.
  intros Hfit Hne Hc. destruct frags as [|kept rest]; [done|].
  exists kept. split; [done|].
  rewrite checkFragments_spec in Hc. by apply coalesce_contiguous.
Qed.

Lemma coalesce_concat_witness :
  exists first, head sample.sealed = Some first
    /\ coalesce sample.sealed
       = Ret (StartOffset first, concat (map Payload sample.sealed)).
Proof.
  apply (coalesce_concat sample.live sample.fresh sample.sealed).
  - repeat constructor; vm_compute; congruence.
  - discriminate.
  - reflexivity.
Defined.

Lemma trim_spec_nothing (W : Z) (frags : list Fragment) :
  trim_spec W frags = ([], None) -> Forall (fun g => EndOffset g <= W) frags.
Proof.
  induction frags as [|g frags IH]; simpl; [constructor|].
  destruct (Z.leb_spec (EndOffset g) W) as [Hle|Hgt].
  - intros Ht. constructor; [done|by apply IH].
  - destruct (W <? StartOffset g); discriminate.
Qed.



(** ** Preparing, then preparing or committing *)

Lemma newFragment_so (so : Z) (ents : list Entry) (e : EntryEncoder) (frag : Fragment) :
  newFragment so ents e = Ret frag -> StartOffset frag = so.
Proof.
  unfold newFragment. destruct (total_size e ents <? 0); [discriminate|].
  destruct (marshal_all e ents _ 0) as [buf| |]; simpl; try discriminate.
  by intros [= <-].
Qed.

Lemma PrepareAppend_inv (ctx : Context) (now : Z) (p : ctxref) (entries : list Entry)
    (w w' : World) (seqs : list Z) (frag : Fragment) (full : bool) (e : option error) :
  PrepareAppend ctx now p entries w = Ret ((seqs, frag, full, e), w') ->
  exists c,
    deref w p = Ret c
    /\ newFragment (offset c) (wrapped c now entries) (enc (blk w)) = Ret frag
    /\ seqs = imap (fun j _ => add64 (seq c) (Z.of_nat j)) entries
    /\ e = None
    /\ w' = assign w p (mkActx (add64 (seq c) (len entries))
                               (add64 (offset c) (Size frag)) (archived c)).
Proof.
  unfold PrepareAppend. destruct (deref w p) as [c| |]; simpl; try discriminate.
  rewrite wrap_entries_wrapped.
  destruct (newFragment (offset c) (wrapped c now entries) (enc (blk w)))
    as [fr| |] eqn:Hnew; simpl; try discriminate.
  intros [= <- <- <- <- <-]. exists c. by repeat split.
Qed.

(** X9. [PrepareArchive] on a detached context [c], the End entry fitting a
    buffer: the call returns without error a fragment that starts at
    [c.offset] and has the codec size of the End entry stamped with
    [c.seq]; the detached context has advanced by that size and by one and
    is marked archived; the block is untouched. *)
Theorem PrepareArchive_spec (ctx : Context) (now : Z) (w : World) (l : nat)
    (c : appendContext) :
  heap w !! l = Some c ->
  let e := wrapEntry EmptyEntryExt ceschema.End (seq c) now in
  0 <= enc_Size (enc (blk w)) e < 2 ^ 63 ->
  exists (frag : Fragment) (w' : World),
    PrepareArchive ctx now (Detached l) w = Ret ((frag, None), w')
    /\ StartOffset frag = offset c
    /\ Size frag = enc_Size (enc (blk w)) e
    /\ deref w' (Detached l)
       = Ret (mkActx (add64 (seq c) 1) (add64 (offset c) (Size frag)) 1)
    /\ blk w' = blk w.
Proof.
  intros Hl e He. unfold PrepareArchive. simpl. rewrite Hl. simpl. fold e.
  destruct (newFragment_fit (offset c) [e] (enc (blk w)))
    as (frag & Hnew & Hso & Hsz).
  { split; [repeat constructor; lia|]. simpl. lia. }
  rewrite Hnew. simpl. exists frag. eexists. split; [reflexivity|].
  split; [done|]. split; [simpl in Hsz; lia|]. split; [|done]. simpl.
  rewrite list_lookup_insert_eq; [done|]. by eapply lookup_lt_Some.
Qed.

Lemma PrepareArchive_spec_witness :
  exists (frag : Fragment) (w' : World),
    PrepareArchive sample.live 1000 (Detached 0)
      (snd (NewAppendContext None sample.world0))
    = Ret ((frag, None), w')
    /\ StartOffset frag = 64
    /\ Size frag = 31
    /\ deref w' (Detached 0) = Ret (mkActx 1 (add64 64 (Size frag)) 1)
    /\ blk w' = sample.fresh.
Proof.
  apply (PrepareArchive_spec sample.live 1000
           (snd (NewAppendContext None sample.world0)) 0 (mkActx 0 64 0)).
  - reflexivity.
  - vm_compute. split; [discriminate|reflexivity].
Defined.

(** X10. Two [PrepareAppend] calls in a row on the same detached context:
    the second fragment starts where the first one ends, so the two pass
    the contiguity check in that order, and the sequence numbers of the
    second call carry on from those of the first. *)
Theorem PrepareAppend_chain (ctx : Context) (now1 now2 : Z) (l : nat)
    (es1 es2 : list Entry) (w w1 w2 : World) (c : appendContext)
    (seqs1 seqs2 : list Z) (f1 f2 : Fragment) (full1 full2 : bool)
    (e1 e2 : option error) :
  heap w !! l = Some c ->
  PrepareAppend ctx now1 (Detached l) es1 w = Ret ((seqs1, f1, full1, e1), w1) ->
  PrepareAppend ctx now2 (Detached l) es2 w1 = Ret ((seqs2, f2, full2, e2), w2) ->
  StartOffset f2 = EndOffset f1
  /\ checkFragments ctx (blk w2) [f1; f2] = None
  /\ forall i : nat, (i < length es2)%nat ->
       seqs2 !! i = Some (add64 (seq c) (len es1 + Z.of_nat i)).
Proof.
  intros Hl H1 H2.
  apply PrepareAppend_inv in H1 as (c1 & Hc1 & Hf1 & _ & _ & ->).
  simpl in Hc1. rewrite Hl in Hc1. injection Hc1 as <-.
  apply PrepareAppend_inv in H2 as (c2 & Hc2 & Hf2 & -> & _ & _).
  simpl in Hc2. rewrite list_lookup_insert_eq in Hc2 by (by eapply lookup_lt_Some).
  injection Hc2 as <-. simpl in Hf2.
  apply newFragment_so in Hf1, Hf2.
  assert (StartOffset f2 = EndOffset f1) as Hchain.
  { rewrite Hf2. unfold EndOffset. unfold StartOffset in Hf1. by rewrite Hf1. }
  split; [done|]. split.
  - unfold checkFragments. simpl. rewrite Hchain, Z.eqb_refl. done.
  - intros i Hi. rewrite list_lookup_imap.
    destruct (lookup_lt_is_Some_2 es2 i Hi) as [x ->]. simpl.
    by rewrite add64_assoc.
Qed.

Lemma PrepareAppend_chain_witness :
  StartOffset (sample.frag_of sample.prep2) = EndOffset (sample.frag_of sample.prep1)
  /\ sample.seqs_of sample.prep2 !! 0%nat = Some 2.
Proof.
  destruct (PrepareAppend_chain sample.live 1000 1001 0
              [sample.ev x01; sample.ev x02] [sample.ev x03]
              sample.world1 (snd sample.prep1) (snd sample.prep2) (mkActx 0 64 0)
              (sample.seqs_of sample.prep1) (sample.seqs_of sample.prep2)
              (sample.frag_of sample.prep1) (sample.frag_of sample.prep2)
              false false None None)
    as (Hso & _ & Hseqs).
  - reflexivity.
  - reflexivity.
  - reflexivity.
  - split; [exact Hso|]. apply (Hseqs 0%nat). simpl. lia.
Defined.

Lemma last_wrapped (c : appendContext) (now : Z) (entries : list Entry) (e : Entry) :
  last (wrapped c now entries) = Some e ->
  ceschema.SequenceNumber e = add64 (seq c) (len entries - 1)
  /\ ceschema.EntryType e = ceschema.CloudEvent.
Proof.
  rewrite last_lookup. unfold wrapped. rewrite list_lookup_imap, length_imap.
  destruct (entries !! pred (length entries)) as [x|] eqn:Hx; [|discriminate].
  apply lookup_lt_Some in Hx. simpl. intros [= <-]. simpl. split; [|done].
  f_equal. unfold len. lia.
Qed.

(** X11. Handing a prepared fragment to [NewAppendContext]: if the last
    entry the decoder finds in the fragment is the last entry that
    [PrepareAppend] wrapped, the context built from the fragment has the
    sequence number and the offset of the detached context as the prepare
    left it, and is not archived. *)
Theorem NewAppendContext_after_prepare (ctx : Context) (now : Z) (w w' : World)
    (l : nat) (c : appendContext) (entries : list Entry) (seqs : list Z)
    (frag : Fragment) (full : bool) (e : option error) :
  heap w !! l = Some c ->
  PrepareAppend ctx now (Detached l) entries w = Ret ((seqs, frag, full, e), w') ->
  last (wrapped c now entries)
  = Some (snd (UnmarshalLast (dec (blk w')) (Payload frag))) ->
  let r := NewAppendContext (Some frag) w' in
  deref w' (Detached l)
  = Ret (mkActx (add64 (seq c) (len entries)) (add64 (offset c) (Size frag))
                (archived c))
  /\ deref (snd r) (fst r)
     = Ret (mkActx (add64 (seq c) (len entries)) (add64 (offset c) (Size frag)) 0).
Proof.
  intros Hl Hprep Hlast.
  apply PrepareAppend_inv in Hprep as (c0 & Hc0 & Hnew & _ & _ & ->).
  simpl in Hc0. rewrite Hl in Hc0. injection Hc0 as <-.
  apply newFragment_so in Hnew. apply last_wrapped in Hlast as [Hseq Hty].
  simpl in Hseq, Hty. split.
  - simpl. rewrite list_lookup_insert_eq; [done|]. by eapply lookup_lt_Some.
  - simpl. unfold NewAppendContext. simpl.
    destruct (UnmarshalLast (dec (blk w)) (Payload frag)) as [n entry].
    simpl in *. rewrite Hty. simpl. rewrite list_lookup_middle by done.
    do 2 f_equal.
    + rewrite Hseq, add64_assoc. f_equal. lia.
    + unfold EndOffset. unfold StartOffset in Hnew. by rewrite Hnew.
Qed.

Lemma NewAppendContext_after_prepare_witness :
  let r := NewAppendContext (Some (sample.frag_of sample.prep1)) (snd sample.prep1) in
  deref (snd sample.prep1) (Detached 0)
  = Ret (mkActx (add64 0 (len [sample.ev x01; sample.ev x02]))
                (add64 64 (Size (sample.frag_of sample.prep1))) 0)
  /\ deref (snd r) (fst r)
     = Ret (mkActx (add64 0 (len [sample.ev x01; sample.ev x02]))
                   (add64 64 (Size (sample.frag_of sample.prep1))) 0).
Proof.
  apply (NewAppendContext_after_prepare sample.live 1000 sample.world1
           (snd sample.prep1) 0 (mkActx 0 64 0) [sample.ev x01; sample.ev x02]
           (sample.seqs_of sample.prep1) (sample.frag_of sample.prep1) false None);
    reflexivity.
Defined.

(** X12. Prepare, then commit. Entries are prepared on a copy of the
    canonical context, and the decoder reads the fragment back as these
    entries, one after the other. Committing the fragment returns
    [(false, nil)]: the payload has been written at the canonical offset,
    one index record per entry has been appended, and the canonical context
    has advanced by the number of entries and by the size of the
    fragment. *)
Theorem prepared_fragment_commits (fuel : nat) (ctx ctx' : Context) (now : Z)
    (w w' : World) (l : nat) (entries : list Entry) (seqs : list Z)
    (frag : Fragment) (full : bool) (e : option error) (ents : list (Z * Entry)) :
  let b := blk w in
  heap w !! l = Some (actx b) ->
  PrepareAppend ctx now (Detached l) entries w = Ret ((seqs, frag, full, e), w') ->
  entries <> [] ->
  map snd ents = wrapped (actx b) now entries ->
  events_run (dec b) (seq (actx b)) (Payload frag) ents [] ->
  0 <= seq (actx b) -> seq (actx b) + len entries < 2 ^ 63 ->
  0 <= offset (actx b) -> offset (actx b) + Size frag < 2 ^ 63 ->
  fault (f b) (length (writes (f b))) = None ->
  exists b',
    CommitAppend (length entries + S fuel) ctx' (blk w') [frag]
    = Ret ((false, None), b')
    /\ seq (actx b') = seq (actx b) + len entries
    /\ offset (actx b') = offset (actx b) + Size frag
    /\ archived (actx b') = archived (actx b)
    /\ indexes b' = indexes b ++ index_run (offset (actx b)) 0 ents
    /\ length (index_run (offset (actx b)) 0 ents) = length entries
    /\ writes (f b') = writes (f b) ++ [(offset (actx b), Payload frag)].
Proof.
  intros b Hl Hprep Hne Hents Hrun Hs0 Hs1 Ho0 Ho1 Hfault.
  apply PrepareAppend_inv in Hprep as (c0 & Hc0 & Hnew & _ & _ & ->).
  simpl in Hc0. rewrite Hl in Hc0. injection Hc0 as <-.
  apply newFragment_so in Hnew. change (blk (assign w (Detached l) _)) with b.
  assert (length ents = length entries) as Hcount.
  { apply (f_equal length) in Hents.
    unfold wrapped in Hents. by rewrite length_map, length_imap in Hents. }
  assert (len ents = len entries) as Hcount' by (unfold len; lia).
  assert (forall base off (l0 : list (Z * Entry)),
             length (index_run base off l0) = length l0) as Hixlen.
  { intros base off l0. revert off.
    induction l0 as [|[n x] l0 IH]; intros off; simpl; [done|]. by rewrite IH. }
  assert (0 < Size frag) as Hpos.
  { destruct ents as [|[n x] ents]; [destruct entries; done|].
    destruct Hrun as (_ & Hn & _). unfold Size, Payload in *. lia. }
  pose proof (len_nonneg (Payload frag)) as Hlen.
  pose proof (len_nonneg entries) as Hnn.
  assert (fits frag) as Hfit.
  { unfold fits. unfold StartOffset in Hnew. rewrite Hnew. split; lia. }
  pose proof (fits_EndOffset frag Hfit) as [Hend _].
  unfold StartOffset in Hnew. rewrite Hnew in Hend.
  (* the scan *)
  assert (buildIndexes (length entries + S fuel) ctx' b (offset (actx b)) (Payload frag)
          = Ret (index_run (offset (actx b)) 0 ents, len entries, false, None)) as Hscan.
  { destruct (scan_after_events b (offset (actx b)) (Payload frag) ents [] 0
                (seq (actx b)) []) as (off' & Hafter & Hoff' & Hrest);
      try done; try (unfold Size, Payload in *; lia).
    { unfold in_int64. lia. }
    unfold buildIndexes. rewrite <- Hcount.
    rewrite (buildIndexes_loop_after _ _ _ _ _ _ _ Hafter). simpl.
    unfold buildIndexes_iter. simpl.
    assert (off' = len (Payload frag)) as ->.
    { symmetry in Hrest. apply (f_equal len) in Hrest.
      rewrite len_drop in Hrest by done. change (len []) with 0 in Hrest. lia. }
    rewrite Z.ltb_irrefl. simpl. do 4 f_equal. rewrite <- Hcount'.
    unfold sub64. rewrite Z.add_simpl_l. apply wrap64_small.
    unfold in_int64. pose proof (len_nonneg ents). lia. }
  eexists. split.
  - apply commit_exit_CommitAppend.
    eapply (exit_committed _ _ _ _ [frag] (offset (actx b)) (Payload frag)).
    + unfold trimFragments. simpl.
      destruct (Z.leb_spec (EndOffset frag) (offset (actx b))); [lia|].
      unfold StartOffset. rewrite Hnew, Z.ltb_irrefl. done.
    + done.
    + done.
    + rewrite coalesce_contiguous; [|constructor; [exact Hfit|constructor]|done].
      unfold StartOffset. rewrite Hnew. simpl. by rewrite app_nil_r.
    + exact Hscan.
    + right. intros Hnil. apply (f_equal length) in Hnil.
      rewrite Hixlen, Hcount in Hnil. by destruct entries.
    + unfold sub64. rewrite Z.sub_diag. change (wrap64 0) with 0.
      apply slice_from_in_range. lia.
    + unfold WriteAt. fold b. rewrite Hfault. reflexivity.
  - simpl. change (drop (Z.to_nat 0) (Payload frag)) with (Payload frag).
    rewrite !add64_small by (unfold in_int64, Size, Payload in *; lia).
    rewrite Hixlen. by repeat split.
Qed.

Lemma prepared_fragment_commits_witness :
  exists b',
    CommitAppend (2 + 1) sample.live (blk (snd sample.prep1))
      [sample.frag_of sample.prep1]
    = Ret ((false, None), b')
    /\ seq (actx b') = 0 + 2
    /\ offset (actx b') = 64 + Size (sample.frag_of sample.prep1)
    /\ archived (actx b') = 0
    /\ length (indexes b') = 2%nat.
Proof.
  assert (events_run (dec sample.fresh) 0 (Payload (sample.frag_of sample.prep1))
            [(33, ceschema.mkEntry ceschema.CloudEvent 0 1000 [x01; x01]);
             (33, ceschema.mkEntry ceschema.CloudEvent 1 1000 [x02; x02])] [])
    as Hrun by (repeat split; discriminate).
  assert ([sample.ev x01; sample.ev x02] <> []) as Hne by discriminate.
  assert (0 <= 0) as Hle0 by lia.
  assert (0 <= 64) as Hle64 by lia.
  destruct (prepared_fragment_commits 0 sample.live sample.live 1000
              sample.world1 (snd sample.prep1) 0 [sample.ev x01; sample.ev x02]
              (sample.seqs_of sample.prep1) (sample.frag_of sample.prep1)
              false None
              [(33, ceschema.mkEntry ceschema.CloudEvent 0 1000 [x01; x01]);
               (33, ceschema.mkEntry ceschema.CloudEvent 1 1000 [x02; x02])]
              eq_refl eq_refl Hne eq_refl Hrun Hle0 eq_refl Hle64 eq_refl eq_refl)
    as (b' & Hcommit & Hseq & Hoff & Harch & Hix & Hn & _).
  exists b'. split; [exact Hcommit|]. split; [exact Hseq|]. split; [exact Hoff|].
  split; [exact Harch|]. rewrite Hix, length_app, Hn. reflexivity.
Defined.

(** ** A sealed block *)

Lemma buildIndexes_loop_set_archived (fuel : nat) (b : vsBlock) (z base : Z)
    (data : bytes) (s : scan) :
  buildIndexes_loop fuel (set_archived b z) base data s
  = buildIndexes_loop fuel b base data s.
Proof.
  revert s. induction fuel as [|fuel IH]; intros s; simpl; [done|].
  change (buildIndexes_iter (set_archived b z) base data s)
    with (buildIndexes_iter b base data s).
  destruct (buildIndexes_iter b base data s); [apply IH|done|done].
Qed.

(** X13. [CommitAppend] does not look at the [archived] flag of the block:
    whatever the flag is set to beforehand, the call returns the same
    values and leaves the same block, the flag itself apart. A block that
    has been archived goes on accepting fragments. *)
Theorem CommitAppend_ignores_archived (fuel : nat) (ctx : Context) (b : vsBlock)
    (z : Z) (frags : list Fragment) :
  blank_archived (CommitAppend fuel ctx (set_archived b z) frags)
  = blank_archived (CommitAppend fuel ctx b frags).
Proof.
  unfold CommitAppend.
  change (trimFragments ctx (set_archived b z) frags) with (trimFragments ctx b frags).
  destruct (trimFragments ctx b frags) as [kept [err|]]; [done|].
  destruct (len kept =? 0); [done|].
  change (checkFragments ctx (set_archived b z) kept) with (checkFragments ctx b kept).
  destruct (checkFragments ctx b kept); [done|].
  destruct (coalesce kept) as [[base data]| |]; simpl; try done.
  unfold buildIndexes. rewrite buildIndexes_loop_set_archived.
  change (seq (actx (set_archived b z))) with (seq (actx b)).
  destruct (buildIndexes_loop fuel b base data _) as [[[[ix cnt] arch] [err|]]| |];
    simpl; try done.
  destruct (negb arch && (len ix =? 0)); [done|].
  destruct (slice_from data (sub64 (offset (actx b)) base)) as [tail| |];
    simpl; try done.
  change (f (set_archived b z)) with (f b).
  destruct (WriteAt (f b) tail (offset (actx b))) as [[n [err|]] f']; [done|].
  simpl. by destruct arch.
Qed.

(** ** A commit that returns *)

Lemma buildIndexes_loop_no_panic (fuel : nat) (b : vsBlock) (base : Z)
    (data : bytes) (s : scan) :
  counts_within (dec b) -> len data < 2 ^ 63 ->
  0 <= sc_off s ->
  buildIndexes_loop fuel b base data s <> Panic.
Proof.
  intros Hcount Hsz. revert s.
  induction fuel as [|fuel IH]; intros s Hoff; simpl; [done|].
  destruct (buildIndexes_iter b base data s) as [s'|r|] eqn:Hit; [|done|];
    revert Hit; unfold buildIndexes_iter;
    (destruct (Z.ltb_spec (sc_off s) (len data)) as [Hlt|]; simpl; [|discriminate]);
    rewrite slice_from_in_range by lia;
    pose proof (Hcount (drop (Z.to_nat (sc_off s)) data)) as Hn;
    rewrite len_drop in Hn by lia;
    destruct (Unmarshal (dec b) (drop (Z.to_nat (sc_off s)) data)) as [n entry];
    simpl in Hn;
    destruct (ceschema.SequenceNumber entry =? sc_expected s).
  - destruct (ceschema.is_End (ceschema.EntryType entry)).
    + destruct (negb (add64 (sc_off s) n =? len data)); discriminate.
    + intros [= <-]. apply IH. simpl.
      rewrite add64_small by (unfold in_int64; lia). lia.
  - destruct ((ceschema.SequenceNumber entry <? sc_expected s)
              && (len (sc_indexes s) =? 0)); [|discriminate].
    intros [= <-]. by apply IH.
  - destruct (ceschema.is_End (ceschema.EntryType entry)).
    + destruct (negb (add64 (sc_off s) n =? len data)); discriminate.
    + discriminate.
  - destruct ((ceschema.SequenceNumber entry <? sc_expected s)
              && (len (sc_indexes s) =? 0)); discriminate.
Qed.

Lemma end_of_bound (kept : Fragment) (rest : list Fragment) :
  Forall fits (kept :: rest) -> end_of kept rest < 2 ^ 63.
Proof.
  revert kept. induction rest as [|q rest IH]; intros kept Hfit;
    apply Forall_cons in Hfit as [Hk Hfit]; simpl.
  - pose proof Hk as [? ?]. apply fits_EndOffset in Hk as [-> _]. lia.
  - by apply IH.
Qed.

Lemma counts_within_tail (d : EntryDecoder) (data : bytes) :
  counts_within d -> len data < 2 ^ 63 -> tail_counts d data.
Proof.
  intros Hcount Hlen k. pose proof (Hcount (drop k data)) as Hn.
  assert (len (drop k data) <= len data) as Hle.
  { unfold len. rewrite length_drop. lia. }
  lia.
Qed.


Lemma wire_counts_within : counts_within wire.decoder.
Proof.
  intros bs. simpl. unfold wire.Unmarshal.
  destruct (Z.ltb_spec (wire.get_le (take 4 bs)) wire.overhead) as [|Hlo]; simpl.
  { pose proof (len_nonneg bs). lia. }
  destruct (Z.ltb_spec (len bs) (wire.get_le (take 4 bs))) as [|Hhi]; simpl.
  { pose proof (len_nonneg bs). lia. }
  unfold wire.overhead in Hlo. lia.
Qed.


(** ** A dense index table *)

Lemma buildIndexes_loop_dense (fuel : nat) (b : vsBlock) (base : Z) (data : bytes)
    (s : scan) (ix : list Index) (cnt : Z) (arch : bool) :
  in_int64 (sc_expected s) ->
  buildIndexes_loop fuel b base data s = Ret (ix, cnt, arch, None) ->
  exists extra,
    ix = sc_indexes s ++ extra
    /\ forall (j : nat) (idx : Index),
         extra !! j = Some idx ->
         index_seq idx = wrap64 (sc_expected s + Z.of_nat j).
Proof.
  revert s. induction fuel as [|fuel IH]; intros s Hexp; simpl; [discriminate|].
  destruct (buildIndexes_iter b base data s) as [s'|r|] eqn:Hit; try discriminate.
  - revert Hit. unfold buildIndexes_iter.
    destruct (negb (sc_off s <? len data)); [discriminate|].
    destruct (slice_from data (sc_off s)) as [rest| |]; try discriminate.
    destruct (Unmarshal (dec b) rest) as [n entry].
    destruct (Z.eqb_spec (ceschema.SequenceNumber entry) (sc_expected s)) as [Heq|].
    + destruct (ceschema.is_End (ceschema.EntryType entry)).
      * destruct (negb (add64 (sc_off s) n =? len data)); discriminate.
      * intros [= <-] H. apply IH in H as (extra & -> & Hextra);
          [|apply wrap64_range].
        simpl in *. eexists. split; [by rewrite <- app_assoc|].
        intros [|j] idx; simpl.
        -- intros [= <-]. simpl. rewrite Z.add_0_r.
           symmetry. rewrite wrap64_small by done. exact (eq_sym Heq).
        -- intros Hj. rewrite (Hextra j idx Hj). unfold add64.
           rewrite wrap64_add_l. f_equal. lia.
    + destruct ((ceschema.SequenceNumber entry <? sc_expected s)
                && (len (sc_indexes s) =? 0)); [|discriminate].
      intros [= <-]. by apply IH.
  - intros [= ->]. exists []. revert Hit. unfold buildIndexes_iter.
    destruct (negb (sc_off s <? len data)).
    + intros [= <- _ _]. by rewrite app_nil_r.
    + destruct (slice_from data (sc_off s)) as [rest| |]; try discriminate.
      destruct (Unmarshal (dec b) rest) as [n entry].
      destruct (ceschema.SequenceNumber entry =? sc_expected s).
      * destruct (ceschema.is_End (ceschema.EntryType entry)); [|discriminate].
        destruct (negb (add64 (sc_off s) n =? len data)); [discriminate|].
        intros [= <- _ _]. by rewrite app_nil_r.
      * destruct ((ceschema.SequenceNumber entry <? sc_expected s)
                  && (len (sc_indexes s) =? 0)); discriminate.
Qed.

(** X15. A commit keeps the index table dense. If the records of the table
    carry consecutive sequence numbers that end just below the canonical
    one, they still do after a commit that returns without error and does
    not archive the block; after one that archives it, they end two below
    the canonical sequence number, the End entry having taken one without
    being indexed. *)
Theorem CommitAppend_keeps_dense (fuel : nat) (ctx : Context) (b : vsBlock)
    (frags : list Fragment) (a : bool) (b' : vsBlock) :
  in_int64 (seq (actx b)) ->
  dense b 0 ->
  CommitAppend fuel ctx b frags = Ret ((a, None), b') ->
  dense b' (b2z a).
Proof.
  intros Hseq Hdense H. apply CommitAppend_exit in H.
  assert (dense b (b2z false)) as Hsame by done.
  remember None as oe eqn:Hoe.
  destruct H as [ | | | | | 
                | kept base data ix cnt arch tail n f' Ht Hne Hc Hco Hbi Hsome Hsl Hw];
    try discriminate; try done.
  pose proof Hbi as Hcnt.
  apply buildIndexes_loop_count in Hcnt as (extra & Hix & ->).
  simpl in Hix. subst extra.
  apply buildIndexes_loop_dense in Hbi as (extra & Hix & Hextra); [|done].
  simpl in Hix, Hextra. subst extra.
  intros i idx. unfold dense in Hdense. simpl.
  rewrite Z.sub_diag, Z.add_0_l, len_app. unfold add64.
  rewrite (Z.add_comm (seq (actx b))), wrap64_add_l.
  destruct (decide (i < length (indexes b))%nat) as [Hi|Hi].
  - rewrite lookup_app_l by done. intros Hidx.
    rewrite (Hdense i idx Hidx).
    replace (wrap64 (len ix + b2z arch + seq (actx b)) - b2z arch
             - (len (indexes b) + len ix) + Z.of_nat i)
      with (wrap64 (len ix + b2z arch + seq (actx b))
            + (- b2z arch - (len (indexes b) + len ix) + Z.of_nat i)) by lia.
    rewrite wrap64_add_l. f_equal. lia.
  - rewrite lookup_app_r by lia. intros Hidx.
    rewrite (Hextra _ idx Hidx).
    replace (wrap64 (len ix + b2z arch + seq (actx b)) - b2z arch
             - (len (indexes b) + len ix) + Z.of_nat i)
      with (wrap64 (len ix + b2z arch + seq (actx b))
            + (- b2z arch - (len (indexes b) + len ix) + Z.of_nat i)) by lia.
    rewrite wrap64_add_l. f_equal. unfold len. lia.
Qed.

Lemma CommitAppend_keeps_dense_witness : dense sample.after01 (b2z false).
Proof.
  apply (CommitAppend_keeps_dense 10 sample.live sample.fresh
           [sample.f0; sample.f1] false sample.after01).
  - unfold in_int64. simpl. lia.
  - intros i idx Hi. destruct i; discriminate.
  - reflexivity.
Defined.
